(** * RAG-AGENT: text cleaning, chunking and FAQ matching

    A shallow embedding of the pure cores of the repository

    - [DAY_1/text_cleaner.py]   ([TextCleaner])
    - [DAY_2/chunking_utility.py] ([TextChunker])
    - [DAY_1/faq_finder.py]     ([FAQFinder])
    - [DAY_2/pdf_processor.py]  ([PDFProcessor], the search in an extracted
      document)

    together with the properties of them that the specification states.

    Conventions of the embedding.

    - A Python [str] is a [string]; one [ascii] stands for one code point
      below 256.  On that range [str.lower], [str.isspace] and the regular
      expression class [\s] are modelled exactly.  The two fixed answer
      messages of [find_answer] are literals that hold their UTF-8 bytes; no
      function ever inspects them.
    - A Python [int] is a [Z].  A [float] that is the quotient of two lengths
      is the exact rational in [Q]: the operands are list and set sizes, and
      on quotients of such small integers the rounded division keeps both
      equality and order.  A threshold is a rational too, so a NaN threshold
      has no counterpart here.
    - A Python [set] of strings is a [gset string], a [dict] keyed by strings
      a [gmap string _].
    - A call that may raise returns in [Py]; a loop whose termination is not
      structural takes fuel and returns [None] when it runs out. *)

From Stdlib Require Import ZArith QArith String Ascii List Lia.
From stdpp Require Import gmap strings list.

Local Open Scope string_scope.
Local Open Scope list_scope.

(** ** Outcomes of a Python call *)

Inductive exn : Type :=
| TypeError (msg : string)
| ValueError (msg : string).

Inductive Py (A : Type) : Type :=
| Ok (a : A)
| Raise (e : exn).

Arguments Ok {A} a.
Arguments Raise {A} e.

Definition raises {A} (r : Py A) : Prop := exists e, r = Raise e.
Definition returns {A} (r : Py A) : Prop := exists a, r = Ok a.

(** ** The [str] primitives the sources call *)

Module PyStr.

Definition between (lo hi n : N) : bool := ((lo <=? n) && (n <=? hi))%N.

(** [str.isspace] on one code point, which is also what [\s] matches:
    TAB..CR, FS..US, SPACE, NEL and NBSP. *)
Definition is_space (c : ascii) : bool :=
  let n := N_of_ascii c in
  between 9 13 n || between 28 32 n || (n =? 133)%N || (n =? 160)%N.

(** [str.lower] on one code point: A..Z and the Latin-1 capitals
    (all of 0xC0..0xDE but the multiplication sign) move up by 32. *)
Definition lower_char (c : ascii) : ascii :=
  let n := N_of_ascii c in
  if between 65 90 n || between 192 214 n || between 216 222 n
  then ascii_of_N (n + 32) else c.

Fixpoint lower (s : string) : string :=
  match s with
  | EmptyString => EmptyString
  | String c r => String (lower_char c) (lower r)
  end.

Fixpoint lstrip (s : string) : string :=
  match s with
  | EmptyString => EmptyString
  | String c r => if is_space c then lstrip r else s
  end.

Fixpoint rstrip (s : string) : string :=
  match s with
  | EmptyString => EmptyString
  | String c r =>
      match rstrip r with
      | EmptyString => if is_space c then EmptyString else String c EmptyString
      | r' => String c r'
      end
  end.

(** [s.strip()] *)
Definition strip (s : string) : string := rstrip (lstrip s).

Definition is_empty (s : string) : bool :=
  match s with EmptyString => true | _ => false end.

Definition snoc (s : string) (c : ascii) : string :=
  String.append s (String c EmptyString).

(** [s.split()]: the maximal runs of non-whitespace, in order.
    [cur] is the run being read. *)
Fixpoint split_from (cur : string) (s : string) : list string :=
  match s with
  | EmptyString => if is_empty cur then [] else [cur]
  | String c r =>
      if is_space c
      then (if is_empty cur then split_from EmptyString r
            else cur :: split_from EmptyString r)
      else split_from (snoc cur c) r
  end.

Definition split (s : string) : list string := split_from EmptyString s.

(** [sep.join(l)] *)
Definition join (sep : string) (l : list string) : string :=
  String.concat sep l.

(** [re.sub(r'[^a-z0-9\s]', '', s)] *)
Definition is_lower_alpha (c : ascii) : bool := between 97 122 (N_of_ascii c).
Definition is_digit (c : ascii) : bool := between 48 57 (N_of_ascii c).
Definition keeps (c : ascii) : bool :=
  is_lower_alpha c || is_digit c || is_space c.

Fixpoint remove_special (s : string) : string :=
  match s with
  | EmptyString => EmptyString
  | String c r => if keeps c then String c (remove_special r)
                  else remove_special r
  end.

(** [re.sub(r'\s+', ' ', s)]: every maximal run of whitespace becomes one
    space.  [in_run] says that the previous character was whitespace. *)
Fixpoint collapse_from (in_run : bool) (s : string) : string :=
  match s with
  | EmptyString => EmptyString
  | String c r =>
      if is_space c
      then (if in_run then collapse_from true r
            else String " " (collapse_from true r))
      else String c (collapse_from false r)
  end.

Definition collapse_spaces (s : string) : string := collapse_from false s.

(** [re.split(r'(?<=[.!?])\s+', s)].  A match starts at a whitespace
    character that directly follows one of [.], [!], [?] and takes the whole
    run of whitespace.  [after_mark] says that the previous character was
    such a mark, [in_sep] that a match is being read, [cur] is the piece
    being read.  The last piece is returned even when it is empty. *)
Definition is_end_mark (c : ascii) : bool :=
  let n := N_of_ascii c in (n =? 46)%N || (n =? 33)%N || (n =? 63)%N.

Fixpoint re_split_from (after_mark in_sep : bool) (cur : string) (s : string)
  : list string :=
  match s with
  | EmptyString => [cur]
  | String c r =>
      if is_space c then
        if in_sep then re_split_from false true cur r
        else if after_mark then cur :: re_split_from false true EmptyString r
        else re_split_from false false (snoc cur c) r
      else re_split_from (is_end_mark c) false (snoc cur c) r
  end.

Definition re_split_sentences (s : string) : list string :=
  re_split_from false false EmptyString s.

(** [l[start:stop]] with Python's treatment of negative and outlying
    indices. *)
Definition clamp_index (n i : Z) : Z :=
  if (i <? 0)%Z then Z.max (i + n) 0 else Z.min i n.

Definition slice {A} (l : list A) (start stop : Z) : list A :=
  let n := Z.of_nat (length l) in
  let lo := clamp_index n start in
  let hi := clamp_index n stop in
  take (Z.to_nat (hi - lo)) (drop (Z.to_nat lo) l).

(** [not l] for a list. *)
Definition is_nil {A} (l : list A) : bool :=
  match l with [] => true | _ => false end.

(** Predicates on strings used to state properties. *)
Fixpoint string_forall (p : ascii -> bool) (s : string) : bool :=
  match s with
  | EmptyString => true
  | String c r => p c && string_forall p r
  end.

Definition is_blank (c : ascii) : bool := (N_of_ascii c =? 32)%N.

(** A lowercase letter, a digit or the space character. *)
Definition clean_char (c : ascii) : bool :=
  is_lower_alpha c || is_digit c || is_blank c.

(** No two space characters next to each other. *)
Fixpoint single_spaced (s : string) : bool :=
  match s with
  | EmptyString => true
  | String a r =>
      match r with
      | EmptyString => true
      | String b _ => negb (is_blank a && is_blank b) && single_spaced r
      end
  end.

Definition starts_with_space (s : string) : bool :=
  match s with
  | EmptyString => false
  | String c _ => is_blank c
  end.

Fixpoint ends_with_space (s : string) : bool :=
  match s with
  | EmptyString => false
  | String c EmptyString => is_blank c
  | String _ r => ends_with_space r
  end.

(** A letter [a-z] or a digit: the characters a token is made of. *)
Definition token_char (c : ascii) : bool := is_lower_alpha c || is_digit c.

Definition not_space (c : ascii) : bool := negb (is_space c).

(** The last character of [s] is whitespace. *)
Fixpoint ends_with_whitespace (s : string) : bool :=
  match s with
  | EmptyString => false
  | String c EmptyString => is_space c
  | String _ r => ends_with_whitespace r
  end.

Definition starts_with_whitespace (s : string) : bool :=
  match s with
  | EmptyString => false
  | String c _ => is_space c
  end.

End PyStr.

(** ** [DAY_1/text_cleaner.py] *)

Module TextCleaner.
Import PyStr.

Definition clean_text (text : string) : string :=
  let text := lower text in
  let text := strip text in
  let text := remove_special text in
  let text := collapse_spaces text in
  text.

Definition tokenize (text : string) : list string :=
  let cleaned := clean_text text in
  let tokens := split cleaned in
  tokens.

Definition get_word_count (text : string) : nat :=
  let tokens := tokenize text in
  length tokens.

End TextCleaner.

(** ** [DAY_2/chunking_utility.py] *)

Module TextChunker.
Import PyStr.

(** The boundary keys of a chunk dictionary: [start_word]/[end_word] for a
    word window, [sentence_count] for a sentence group. *)
Inductive Bounds : Type :=
| WordSpan (start_word end_word : Z)
| SentenceCount (sentence_count : Z).

Record Chunk : Type := mkChunk {
  chunk_id : Z;
  text : string;
  bounds : Bounds;
  word_count : Z;
  method : string
}.

(** The object state, [self]. *)
Record t : Type := mkChunker {
  chunk_size : Z;
  overlap : Z
}.

(** [__init__]: the two arguments are stored as they come (the [print]
    calls have no result). *)
Definition init (chunk_size overlap : Z) : Py t :=
  Ok {| chunk_size := chunk_size; overlap := overlap |}.

Definition split_into_sentences (text : string) : list string :=
  let sentences := re_split_sentences text in
  let clean_sentences :=
    map strip (List.filter (fun s => negb (is_empty (strip s))) sentences) in
  clean_sentences.

Definition count_words (text : string) : Z :=
  Z.of_nat (length (split text)).

(** The [while] loop of [chunk_by_words]; [words_loop] is entered at the
    loop test. *)
Fixpoint words_loop (fuel : nat) (self : t) (words : list string)
    (chunks : list Chunk) (chunk_id start : Z) : option (list Chunk) :=
  if (start <? Z.of_nat (length words))%Z then
    match fuel with
    | O => None
    | S fuel =>
        let end_ := Z.min (start + chunk_size self) (Z.of_nat (length words)) in
        let chunk_words := slice words start end_ in
        let chunk_text := join " " chunk_words in
        let chunks := chunks ++ [ {| chunk_id := chunk_id;
                                     text := chunk_text;
                                     bounds := WordSpan start end_;
                                     word_count := Z.of_nat (length chunk_words);
                                     method := "word-based" |} ] in
        let chunk_id := (chunk_id + 1)%Z in
        let start' := (end_ - overlap self)%Z in
        if (start' <=? start)%Z then Some chunks
        else words_loop fuel self words chunks chunk_id start'
    end
  else Some chunks.

(** Every pass either leaves the loop or moves [start] up by one at least,
    so [length words] passes are enough (see [chunk_by_words_total]). *)
Definition chunk_by_words (self : t) (text : string) : option (list Chunk) :=
  let words := split text in
  words_loop (length words) self words [] 0%Z 0%Z.

(** The loop state of [chunk_by_sentences]. *)
Record SentState : Type := mkSentState {
  st_chunks : list Chunk;
  st_current_chunk : list string;
  st_current_word_count : Z;
  st_chunk_id : Z
}.

Definition sentence_chunk (chunk_id : Z) (current_chunk : list string)
    (current_word_count : Z) : Chunk :=
  {| chunk_id := chunk_id;
     text := join " " current_chunk;
     bounds := SentenceCount (Z.of_nat (length current_chunk));
     word_count := current_word_count;
     method := "sentence-based" |}.

Definition sum_Z (l : list Z) : Z := fold_right Z.add 0%Z l.

(** [current_chunk[-2:] if len(current_chunk) >= 2 else current_chunk] *)
Definition last_two (current_chunk : list string) : list string :=
  if (2 <=? Z.of_nat (length current_chunk))%Z
  then slice current_chunk (-2) (Z.of_nat (length current_chunk))
  else current_chunk.

(** One pass of the [for sentence in sentences] loop. *)
Definition sentence_step (self : t) (st : SentState) (sentence : string)
  : SentState :=
  let sentence_word_count := count_words sentence in
  let st :=
    if (st_current_word_count st + sentence_word_count >? chunk_size self)%Z
       && negb (is_nil (st_current_chunk st))
    then
      let chunks := st_chunks st ++
        [sentence_chunk (st_chunk_id st) (st_current_chunk st)
                        (st_current_word_count st)] in
      let overlap_sentences := last_two (st_current_chunk st) in
      {| st_chunks := chunks;
         st_current_chunk := overlap_sentences;
         st_current_word_count := sum_Z (map count_words overlap_sentences);
         st_chunk_id := (st_chunk_id st + 1)%Z |}
    else st in
  {| st_chunks := st_chunks st;
     st_current_chunk := st_current_chunk st ++ [sentence];
     st_current_word_count := (st_current_word_count st + sentence_word_count)%Z;
     st_chunk_id := st_chunk_id st |}.

(** The state before the loop. *)
Definition start_state : SentState :=
  {| st_chunks := []; st_current_chunk := [];
     st_current_word_count := 0%Z; st_chunk_id := 0%Z |}.

Definition sentences_loop (self : t) (sentences : list string) : SentState :=
  fold_left (sentence_step self) sentences start_state.

(** What follows the loop: the last group, when there is one. *)
Definition close_last (st : SentState) : list Chunk :=
  if negb (is_nil (st_current_chunk st))
  then st_chunks st ++
       [sentence_chunk (st_chunk_id st) (st_current_chunk st)
                       (st_current_word_count st)]
  else st_chunks st.

Definition chunk_sentences (self : t) (sentences : list string) : list Chunk :=
  close_last (sentences_loop self sentences).

Definition chunk_by_sentences (self : t) (text : string) : list Chunk :=
  let sentences := split_into_sentences text in
  chunk_sentences self sentences.

(** [chunk_text]: [None] stands for a word loop that ran out of fuel, which
    [chunk_by_words_total] excludes. *)
Definition chunk_text (self : t) (text : string) (method : string)
  : option (Py (list Chunk)) :=
  if String.eqb method "words" then
    match chunk_by_words self text with
    | Some chunks => Some (Ok chunks)
    | None => None
    end
  else if String.eqb method "sentences" then
    Some (Ok (chunk_by_sentences self text))
  else
    Some (Raise (ValueError
      (String.append "Unknown method: "
         (String.append method ". Use 'words' or 'sentences'")))).

(** The result dictionary of [get_chunk_stats]: either the single key
    [error] or the six statistics. *)
Record Stats : Type := mkStats {
  total_chunks : Z;
  avg_words_per_chunk : Q;
  min_words : Z;
  max_words : Z;
  total_words : Z;
  stats_method : string
}.

Inductive StatsDict : Type :=
| ErrorDict (error : string)
| StatsOf (s : Stats).

Definition min_list (x : Z) (l : list Z) : Z := fold_left Z.min l x.
Definition max_list (x : Z) (l : list Z) : Z := fold_left Z.max l x.

Definition get_chunk_stats (chunks : list Chunk) : Py StatsDict :=
  match chunks with
  | [] => Ok (ErrorDict "No chunks provided")
  | c0 :: rest =>
      let word_counts := map word_count chunks in
      Ok (StatsOf
            {| total_chunks := Z.of_nat (length chunks);
               avg_words_per_chunk :=
                 Qmake (sum_Z word_counts) (Pos.of_nat (length word_counts));
               min_words := min_list (word_count c0) (map word_count rest);
               max_words := max_list (word_count c0) (map word_count rest);
               total_words := sum_Z word_counts;
               stats_method := method c0 |})
  end.

(** Predicates used to state properties of the word windows. *)

(** [c] is the window of the tokens [s..e) of [words]. *)
Definition spans (words : list string) (c : Chunk) (s e : Z) : Prop :=
  bounds c = WordSpan s e /\ (0 <= s < e)%Z /\ (e <= Z.of_nat (length words))%Z /\
  text c = join " " (slice words s e) /\ word_count c = (e - s)%Z.

(** [c] is the group of the whole sentences [run], joined by single
    spaces. *)
Definition groups (c : Chunk) (run : list string) : Prop :=
  run <> [] /\ text c = join " " run /\
  bounds c = SentenceCount (Z.of_nat (length run)).

(** [run] is a run of consecutive elements of [l]. *)
Definition run_of {A} (run l : list A) : Prop :=
  exists before after, l = before ++ run ++ after.

(** What the sentence loop keeps true once the sentences [seen] have been
    read: the open group is what [seen] ends with, it is empty only before
    the first sentence, the running count is its word count, and each closed
    chunk is a group of consecutive sentences of [seen]. *)
Definition loop_inv (seen : list string) (st : SentState) : Prop :=
  (exists before, seen = before ++ st_current_chunk st) /\
  (seen <> [] -> st_current_chunk st <> []) /\
  st_current_word_count st = sum_Z (map count_words (st_current_chunk st)) /\
  (forall c, In c (st_chunks st) -> exists run, groups c run /\ run_of run seen).

(** Token [i] lies in the window of one of [chunks]. *)
Definition covers (chunks : list Chunk) (i : Z) : Prop :=
  exists c s e, In c chunks /\ bounds c = WordSpan s e /\ (s <= i < e)%Z.

(** [l] is a chain of word windows over [n] tokens that begins at [start]:
    each window is [s, min(s + chunk_size, n)) with [s < n], and the next one
    begins [overlap] tokens before the end of this one, further right than
    [s]. *)
Fixpoint windows (self : t) (n start : Z) (l : list Chunk) : Prop :=
  match l with
  | [] => True
  | c :: rest =>
      let stop := Z.min (start + chunk_size self) n in
      bounds c = WordSpan start stop /\ (start < n)%Z /\
      (rest <> [] -> (start < stop - overlap self)%Z) /\
      windows self n (stop - overlap self) rest
  end.

(** The identifiers [first], [first + 1], ... *)
Definition ids_from (first : Z) (count : nat) : list Z :=
  map (fun k => (first + Z.of_nat k)%Z) (seq 0 count).

(** The word window fields of a chunk are filled from [words]. *)
Definition word_fields (words : list string) (c : Chunk) : Prop :=
  exists s e, bounds c = WordSpan s e /\
    text c = join " " (slice words s e) /\
    word_count c = Z.of_nat (length (slice words s e)) /\
    method c = "word-based".

(** Further facts that the sentence loop keeps true, each about the state
    [st] reached once the sentences [seen] have been read. *)

(** The closed chunks are numbered from 0 and the counter is their number. *)
Definition ids_inv (seen : list string) (st : SentState) : Prop :=
  map chunk_id (st_chunks st) = ids_from 0 (length (st_chunks st)) /\
  st_chunk_id st = Z.of_nat (length (st_chunks st)).

(** Each sentence read is in the open group or in a closed chunk. *)
Definition cover_inv (seen : list string) (st : SentState) : Prop :=
  forall s, In s seen ->
    In s (st_current_chunk st) \/
    exists c run, In c (st_chunks st) /\ groups c run /\ In s run.

(** A group above [chunk_size] has at most three sentences. *)
Definition ceiling_inv (self : t) (seen : list string) (st : SentState) : Prop :=
  ((chunk_size self < st_current_word_count st)%Z ->
   (length (st_current_chunk st) <= 3)%nat) /\
  (forall c, In c (st_chunks st) -> (chunk_size self < word_count c)%Z ->
     exists k, bounds c = SentenceCount k /\ (k <= 3)%Z).

(** The recorded count of a closed chunk is the word count of its text. *)
Definition count_inv (seen : list string) (st : SentState) : Prop :=
  forall c, In c (st_chunks st) -> word_count c = count_words (text c).



(** While everything read fits in [chunk_size], nothing is closed. *)
Definition fits_inv (self : t) (seen : list string) (st : SentState) : Prop :=
  (sum_Z (map count_words seen) <= chunk_size self)%Z ->
  st = {| st_chunks := []; st_current_chunk := seen;
          st_current_word_count := sum_Z (map count_words seen);
          st_chunk_id := 0%Z |}.

End TextChunker.

(** ** [DAY_1/faq_finder.py] *)

Module FAQFinder.
Import PyStr.

(** One entry of [self.faqs]. *)
Record FAQ : Type := mkFAQ {
  question : string;
  answer : string;
  question_clean : string
}.

(** The object state, [self] (the cleaner and the unused similarity helper
    carry no state). *)
Record t : Type := mkFinder {
  faqs : list FAQ;
  stop_words : gset string;
  synonyms : gmap string (list string)
}.

(** The result dictionary of [find_answer]. *)
Record MatchResult : Type := mkResult {
  r_answer : string;
  confidence : Q;
  matched_question : option string
}.

(** [__init__].  The keys of the synonym literal are pairwise distinct. *)
Definition init : t :=
  {| faqs := [];
     stop_words := list_to_set
       [ "a"; "an"; "the"; "is"; "are"; "am"; "be"; "to"; "of"; "in";
         "on"; "at"; "for"; "with"; "do"; "does"; "i"; "you"; "we";
         "they"; "there"; "can"; "will"; "it"; "what"; "how"; "when"; "where" ];
     synonyms := list_to_map
       [ ("sign", ["register"; "signup"; "join"; "enroll"]);
         ("register", ["sign"; "signup"; "join"; "enroll"]);
         ("signup", ["sign"; "register"; "join"; "enroll"]);
         ("pay", ["fee"; "cost"; "price"; "money"; "charge"]);
         ("fee", ["pay"; "cost"; "price"; "money"; "charge"]);
         ("cost", ["pay"; "fee"; "price"; "money"; "charge"]);
         ("start", ["schedule"; "time"; "begin"; "when"]);
         ("time", ["schedule"; "start"; "when"]);
         ("when", ["time"; "schedule"; "start"]);
         ("where", ["venue"; "location"; "place"]);
         ("venue", ["where"; "location"; "place"]);
         ("location", ["where"; "venue"; "place"]) ] |}.

Definition add_faq (self : t) (question answer : string) : t :=
  {| faqs := faqs self ++
             [ {| question := question;
                  answer := answer;
                  question_clean := TextCleaner.clean_text question |} ];
     stop_words := stop_words self;
     synonyms := synonyms self |}.

(** [expanded = set(words)], then one [update] per word that is a key. *)
Definition expand_with_synonyms (self : t) (words : gset string) : gset string :=
  set_fold (fun word (expanded : gset string) =>
              match synonyms self !! word with
              | Some syns => expanded ∪ list_to_set syns
              | None => expanded
              end) words words.

Definition set_is_empty (X : gset string) : bool := bool_decide (X = ∅).

(** The word set of a cleaned question.  [find_answer] computes it the
    same way for the user's question (lines 180-187) and for each stored
    question (lines 195-199): drop the stop words, expand, and take the
    plain words when the expansion is empty. *)
Definition match_words (self : t) (clean : string) : gset string :=
  let words_raw : gset string := list_to_set (split clean) ∖ stop_words self in
  let words := expand_with_synonyms self words_raw in
  if set_is_empty words then list_to_set (split clean) else words.

(** The query word set as [find_answer] computes it. *)
Definition user_words (self : t) (user_question : string) : gset string :=
  match_words self (TextCleaner.clean_text user_question).

(** [len(intersection) / len(union)] when the union is not empty. *)
Definition score (user_words faq_words : gset string) : Q :=
  let intersection := user_words ∩ faq_words in
  let union := user_words ∪ faq_words in
  if (0 <? size union)%nat
  then Qmake (Z.of_nat (size intersection)) (Pos.of_nat (size union))
  else 0%Q.

Definition Qgt_bool (x y : Q) : bool := negb (Qle_bool x y).
Definition Qlt_bool (x y : Q) : bool := negb (Qle_bool y x).

(** One pass of [for faq in self.faqs]; the state is
    [(best_match, best_score)]. *)
Definition best_step (self : t) (user_words : gset string)
    (best : option FAQ * Q) (faq : FAQ) : option FAQ * Q :=
  let faq_words := match_words self (question_clean faq) in
  let s := score user_words faq_words in
  if Qgt_bool s (snd best) then (Some faq, s) else best.

Definition NO_FAQS : string :=
  "❌ No FAQs loaded yet! Please add some FAQs first.".
Definition NO_MATCH : string :=
  "🤔 I couldn't find a good answer to that question. Could you rephrase it?".

Definition find_answer (self : t) (user_question : string) (threshold : Q)
  : Py MatchResult :=
  if is_nil (faqs self) then
    Ok {| r_answer := NO_FAQS; confidence := 0%Q; matched_question := None |}
  else
    let user_words := user_words self user_question in
    let '(best_match, best_score) :=
      fold_left (best_step self user_words) (faqs self) (None, 0%Q) in
    if Qlt_bool best_score threshold then
      Ok {| r_answer := NO_MATCH; confidence := best_score;
            matched_question := None |}
    else
      match best_match with
      | Some faq =>
          Ok {| r_answer := answer faq; confidence := best_score;
                matched_question := Some (question faq) |}
      | None => Raise (TypeError "'NoneType' object is not subscriptable")
      end.

(** The query word set as the specification words it: filter, fall back
    to the plain token set when nothing is left, and expand what results. *)
Definition query_set_spec (self : t) (query : string) : gset string :=
  let tokens : gset string := list_to_set (TextCleaner.tokenize query) in
  let filtered := tokens ∖ stop_words self in
  let base := if set_is_empty filtered then tokens else filtered in
  expand_with_synonyms self base.

(** The score that [find_answer] gives a stored entry. *)
Definition entry_score (self : t) (user_words : gset string) (faq : FAQ) : Q :=
  score user_words (match_words self (question_clean faq)).

(** [line.split('|', 1)]: the text before the first bar and the text after
    it; [None] when the line has no bar. *)
Fixpoint split_bar (line : string) : option (string * string) :=
  match line with
  | EmptyString => None
  | String c r =>
      if Ascii.eqb c "|" then Some (EmptyString, r)
      else match split_bar r with
           | Some (q, a) => Some (String c q, a)
           | None => None
           end
  end.

(** ['|' in line] *)
Fixpoint has_bar (line : string) : bool :=
  match line with
  | EmptyString => false
  | String c r => Ascii.eqb c "|" || has_bar r
  end.

(** One pass of [for line in file] in [load_from_file].  A line with a bar
    always splits in two, so the last case is never reached. *)
Definition load_line (self : t) (line : string) : t :=
  let line := strip line in
  if negb (is_empty line) && has_bar line then
    match split_bar line with
    | Some (question, answer) => add_faq self (strip question) (strip answer)
    | None => self
    end
  else self.

(** [load_from_file], given what opening the file yields: its lines, or
    [None] when there is no such file (the error is printed and the finder is
    left as it was). *)
Definition load_from_file (self : t) (file : option (list string)) : t :=
  match file with
  | Some lines => fold_left load_line lines self
  | None => self
  end.

End FAQFinder.


(** ** [DAY_2/pdf_processor.py]: searching an extracted document *)

Module PDFProcessor.
Import PyStr.

(** One entry of [doc['pages']]. *)
Record Page : Type := mkPage {
  page_number : Z;
  page_text : string
}.

(** The document dictionary as far as [search_in_document] reads it: the
    list under the key [pages], or [None] when the key is missing (as in the
    dictionary that [extract_with_metadata] returns after an error). *)
Record Doc : Type := mkDoc {
  pages : option (list Page)
}.

(** One entry of the result. *)
Record PageMatch : Type := mkPageMatch {
  match_page_number : Z;
  preview : string
}.

(** [s.startswith(p)] *)
Fixpoint is_prefix (p s : string) : bool :=
  match p with
  | EmptyString => true
  | String a p' =>
      match s with
      | EmptyString => false
      | String b s' => Ascii.eqb a b && is_prefix p' s'
      end
  end.

(** [p in s] *)
Fixpoint contains (s p : string) : bool :=
  is_prefix p s ||
  match s with
  | EmptyString => false
  | String _ r => contains r p
  end.

(** [s[:n]] *)
Fixpoint first_chars (n : nat) (s : string) : string :=
  match n with
  | O => EmptyString
  | S n =>
      match s with
      | EmptyString => EmptyString
      | String c r => String c (first_chars n r)
      end
  end.

Definition page_match (page : Page) : PageMatch :=
  {| match_page_number := page_number page;
     preview := String.append (first_chars 200 (page_text page)) "..." |}.

Definition search_in_document (doc : Doc) (search_term : string)
  : list PageMatch :=
  match pages doc with
  | None => []
  | Some pages =>
      let search_term_lower := lower search_term in
      fold_left
        (fun matching_pages page =>
           if contains (lower (page_text page)) search_term_lower
           then matching_pages ++ [page_match page]
           else matching_pages)
        pages []
  end.

End PDFProcessor.

(** * Properties *)

(** ** The text cleaner *)

Module CleanerFacts.
Import PyStr TextCleaner.

Lemma is_space_blank c : is_blank c = true -> is_space c = true.
Proof.
  unfold is_blank, is_space. intros H%N.eqb_eq. rewrite H. reflexivity.
Qed.

Lemma is_blank_eq c : is_blank c = true -> c = " "%char.
Proof.
  unfold is_blank. intros H%N.eqb_eq.
  rewrite <- (ascii_N_embedding c), H. reflexivity.
Qed.

Lemma keeps_not_space c :
  keeps c = true -> is_space c = false -> clean_char c = true.
Proof.
  unfold keeps, clean_char. intros H Hs. rewrite Hs, orb_false_r in H.
  rewrite H. reflexivity.
Qed.

Lemma keeps_remove_special s : string_forall keeps (remove_special s) = true.
Proof.
  induction s as [|c r IH]; simpl; [reflexivity|].
  destruct (keeps c) eqn:Hc; simpl; [rewrite Hc|]; assumption.
Qed.

Lemma collapse_from_alphabet b s :
  string_forall keeps s = true ->
  string_forall clean_char (collapse_from b s) = true.
Proof.
  revert b. induction s as [|c r IH]; intros b; simpl; [reflexivity|].
  intros [Hc Hr]%andb_prop.
  destruct (is_space c) eqn:Hs.
  - destruct b; simpl; auto.
  - simpl. rewrite (keeps_not_space c Hc Hs). simpl. auto.
Qed.

(** The characters of a cleaned text: lowercase letters, digits, spaces. *)
Lemma clean_text_alphabet s : string_forall clean_char (clean_text s) = true.
Proof.
  unfold clean_text, collapse_spaces.
  apply collapse_from_alphabet, keeps_remove_special.
Qed.

Lemma collapse_from_head b s :
  b = true -> starts_with_space (collapse_from b s) = false.
Proof.
  intros ->. induction s as [|c r IH]; simpl; [reflexivity|].
  destruct (is_space c) eqn:Hs; [assumption|].
  simpl. destruct (is_blank c) eqn:Hb; [|reflexivity].
  apply is_space_blank in Hb. congruence.
Qed.

Lemma single_spaced_cons c s :
  single_spaced (String c s) =
  negb (is_blank c && starts_with_space s) && single_spaced s.
Proof.
  destruct s as [|d r]; simpl; [|reflexivity].
  rewrite andb_false_r. reflexivity.
Qed.

Lemma collapse_from_single_spaced b s : single_spaced (collapse_from b s) = true.
Proof.
  revert b. induction s as [|c r IH]; intros b; [reflexivity|].
  cbn [collapse_from]. destruct (is_space c) eqn:Hs.
  - destruct b; [apply IH|].
    rewrite single_spaced_cons, IH, collapse_from_head by reflexivity.
    reflexivity.
  - rewrite single_spaced_cons, IH.
    destruct (is_blank c) eqn:Hb; [|reflexivity].
    apply is_space_blank in Hb. congruence.
Qed.

(** Spaces in a cleaned text never come in pairs. *)
Lemma clean_text_single_spaced s : single_spaced (clean_text s) = true.
Proof. apply collapse_from_single_spaced. Qed.

(** *** Cleaning an already cleaned text only strips it *)

Ltac by_cases_on_char c :=
  destruct c as [[] [] [] [] [] [] [] []]; vm_compute;
  solve [reflexivity | intros; discriminate | intros; reflexivity].

Lemma lower_char_clean c : clean_char c = true -> lower_char c = c.
Proof. by_cases_on_char c. Qed.

Lemma keeps_clean c : clean_char c = true -> keeps c = true.
Proof. by_cases_on_char c. Qed.

Lemma space_clean c : clean_char c = true -> is_space c = is_blank c.
Proof. by_cases_on_char c. Qed.

Lemma lower_clean s : string_forall clean_char s = true -> lower s = s.
Proof.
  induction s as [|c r IH]; simpl; [reflexivity|].
  intros [Hc Hr]%andb_prop. rewrite (lower_char_clean c Hc), IH; auto.
Qed.

Lemma remove_special_clean s :
  string_forall clean_char s = true -> remove_special s = s.
Proof.
  induction s as [|c r IH]; simpl; [reflexivity|].
  intros [Hc Hr]%andb_prop. rewrite (keeps_clean c Hc), IH; auto.
Qed.

Lemma collapse_from_clean b s :
  (b = true -> starts_with_space s = false) ->
  string_forall clean_char s = true -> single_spaced s = true ->
  collapse_from b s = s.
Proof.
  revert b. induction s as [|c r IH]; intros b Hb Hall Hss; [reflexivity|].
  cbn [string_forall] in Hall. apply andb_prop in Hall as [Hc Hr].
  rewrite single_spaced_cons in Hss. apply andb_prop in Hss as [Hcr Hss].
  cbn [collapse_from]. rewrite (space_clean c Hc).
  destruct (is_blank c) eqn:Hbl.
  - destruct b; [specialize (Hb eq_refl); simpl in Hb; congruence|].
    rewrite (is_blank_eq c Hbl). f_equal. apply IH; auto.
    intros _. simpl in Hcr. apply negb_true_iff in Hcr. exact Hcr.
  - f_equal. apply IH; auto. discriminate.
Qed.

Lemma lstrip_forall p s :
  string_forall p s = true -> string_forall p (lstrip s) = true.
Proof.
  induction s as [|c r IH]; simpl; [reflexivity|].
  intros H. destruct (is_space c); [|exact H].
  apply andb_prop in H as [_ H]. auto.
Qed.

Lemma rstrip_forall p s :
  string_forall p s = true -> string_forall p (rstrip s) = true.
Proof.
  induction s as [|c r IH]; simpl; [reflexivity|].
  intros [Hc Hr]%andb_prop. specialize (IH Hr).
  destruct (rstrip r) as [|d r'].
  - destruct (is_space c); simpl; [reflexivity|]. rewrite Hc. reflexivity.
  - cbn [string_forall]. rewrite Hc. exact IH.
Qed.

Lemma lstrip_single_spaced s :
  single_spaced s = true -> single_spaced (lstrip s) = true.
Proof.
  induction s as [|c r IH]; [reflexivity|].
  intros H. cbn [lstrip]. destruct (is_space c); [|exact H].
  rewrite single_spaced_cons in H. apply andb_prop in H as [_ H]. auto.
Qed.

Lemma rstrip_head s :
  starts_with_space s = false -> starts_with_space (rstrip s) = false.
Proof.
  destruct s as [|c r]; [reflexivity|]. simpl. intros Hc.
  destruct (rstrip r); [destruct (is_space c)|]; simpl; auto.
Qed.

Lemma rstrip_single_spaced s :
  single_spaced s = true -> single_spaced (rstrip s) = true.
Proof.
  induction s as [|c r IH]; [reflexivity|].
  rewrite single_spaced_cons. intros [Hc Hr]%andb_prop. specialize (IH Hr).
  cbn [rstrip]. destruct (rstrip r) as [|d r'] eqn:E.
  - destruct (is_space c); reflexivity.
  - rewrite single_spaced_cons, IH, andb_true_r.
    destruct (is_blank c); [|reflexivity]. simpl in Hc.
    apply negb_true_iff in Hc. rewrite <- E, (rstrip_head r Hc). reflexivity.
Qed.

Lemma clean_text_on_clean s :
  string_forall clean_char s = true -> single_spaced s = true ->
  clean_text s = strip s.
Proof.
  intros Hall Hss. unfold clean_text, collapse_spaces.
  rewrite (lower_clean s Hall).
  assert (Hall' : string_forall clean_char (strip s) = true)
    by (apply rstrip_forall, lstrip_forall, Hall).
  rewrite (remove_special_clean _ Hall').
  apply collapse_from_clean; [discriminate|exact Hall'|].
  apply rstrip_single_spaced, lstrip_single_spaced, Hss.
Qed.

(** A second cleaning strips the one space that the first may have left
    at either end, and does nothing else. *)
Lemma clean_text_twice s : clean_text (clean_text s) = strip (clean_text s).
Proof.
  apply clean_text_on_clean;
    [apply clean_text_alphabet | apply clean_text_single_spaced].
Qed.

(** C3, at the input ["! a"]: the cleaned text keeps the space that followed
    the removed mark and so begins with a space; at ["Hello world !"] it ends
    with one.  Whitespace is stripped before the special characters are
    removed, so whitespace that only they kept off the ends stays. *)
Theorem clean_text_leaves_outer_space :
  clean_text "! a" = " a" /\ starts_with_space (clean_text "! a") = true /\
  clean_text "Hello world !" = "hello world " /\
  ends_with_space (clean_text "Hello world !") = true.
Proof. repeat split; reflexivity. Qed.

(** C2, at the input ["! a"]: cleaning the cleaned text changes it again,
    [" a"] becomes ["a"]. *)
Theorem clean_text_not_idempotent :
  clean_text "! a" = " a" /\ clean_text (clean_text "! a") = "a" /\
  clean_text (clean_text "! a") <> clean_text "! a".
Proof. repeat split; try reflexivity. vm_compute. discriminate. Qed.

End CleanerFacts.

(** ** The chunker *)

Module ChunkerFacts.
Import PyStr TextChunker.

Local Open Scope Z_scope.

(** *** Construction and statistics *)

(** C4, counterexample: a chunker whose overlap exceeds its non-positive
    chunk size is built without any error. *)
Lemma init_accepts_bad_parameters :
  init 0 5 = Ok {| chunk_size := 0; overlap := 5 |} /\
  overlap {| chunk_size := 0; overlap := 5 |} >= chunk_size {| chunk_size := 0; overlap := 5 |} /\
  ~ raises (init 0 5).
Proof.
  split; [reflexivity|]. split; [simpl; lia|].
  intros [e He]. discriminate He.
Qed.

(** C4, as the code has it: construction checks nothing.  For every pair of
    parameters it succeeds and stores both values as given. *)
Theorem init_never_fails (cs ov : Z) :
  init cs ov = Ok {| chunk_size := cs; overlap := ov |} /\ returns (init cs ov).
Proof. split; [reflexivity|]. eexists. reflexivity. Qed.

(** C5, counterexample: on the empty chunk list no error is raised. *)
Lemma get_chunk_stats_empty_no_raise : ~ raises (get_chunk_stats []).
Proof. intros [e He]. discriminate He. Qed.

(** C5, as the code has it: on the empty list the call returns normally, and
    what it returns is the dictionary with the one key [error]; on any other
    list it returns the statistics. *)
Theorem get_chunk_stats_empty_error_dict :
  get_chunk_stats [] = Ok (ErrorDict "No chunks provided") /\
  returns (get_chunk_stats []) /\
  forall c0 rest, exists s, get_chunk_stats (c0 :: rest) = Ok (StatsOf s).
Proof.
  split; [reflexivity|]. split; [eexists; reflexivity|].
  intros c0 rest. eexists. reflexivity.
Qed.

(** *** Termination of the word window loop *)

Lemma words_loop_total self words fuel chunks id start :
  Z.of_nat (length words) - start <= Z.of_nat fuel ->
  is_Some (words_loop fuel self words chunks id start).
Proof.
  revert chunks id start.
  induction fuel as [|fuel IH]; intros chunks id start Hfuel; cbn [words_loop].
  - destruct (start <? Z.of_nat (length words)) eqn:Hlt; [|eexists; reflexivity].
    apply Z.ltb_lt in Hlt. lia.
  - destruct (start <? Z.of_nat (length words)) eqn:Hlt; [|eexists; reflexivity].
    cbv zeta.
    destruct (_ - overlap self <=? start) eqn:Hadv; [eexists; reflexivity|].
    apply Z.leb_gt in Hadv. apply IH. lia.
Qed.

(** [chunk_by_words] returns for every configuration and every text. *)
Lemma chunk_by_words_total self text : is_Some (chunk_by_words self text).
Proof. apply words_loop_total. lia. Qed.

(** *** Coverage of the word windows *)

Lemma slice_length {A} (l : list A) s e :
  0 <= s <= e -> e <= Z.of_nat (length l) ->
  Z.of_nat (length (slice l s e)) = e - s.
Proof.
  intros Hs He. unfold slice, clamp_index.
  destruct (s <? 0) eqn:Hs0; [apply Z.ltb_lt in Hs0; lia|].
  destruct (e <? 0) eqn:He0; [apply Z.ltb_lt in He0; lia|].
  rewrite length_take, length_drop. lia.
Qed.

Lemma covers_app chunks more i : covers chunks i -> covers (chunks ++ more) i.
Proof.
  intros (c & s & e & Hin & Hb & Hi). exists c, s, e.
  split; [apply in_or_app; left; exact Hin|]. split; assumption.
Qed.

Lemma covers_last chunks c s e i :
  bounds c = WordSpan s e -> s <= i < e -> covers (chunks ++ [c]) i.
Proof.
  intros Hb Hi. exists c, s, e.
  split; [apply in_or_app; right; left; reflexivity|]. split; assumption.
Qed.

Section WordWindows.
Variable self : t.
Variable words : list string.
Hypothesis size_pos : 0 < chunk_size self.
Hypothesis overlap_ok : 0 <= overlap self < chunk_size self.

Let n := Z.of_nat (length words).

(** The loop invariant: the windows built so far are windows of [words] and
    cover every token before [start]. *)
Lemma words_loop_covers fuel chunks id start :
  0 <= start -> n - start <= Z.of_nat fuel ->
  (forall c, In c chunks -> exists s e, spans words c s e) ->
  (forall i, 0 <= i < start -> i < n -> covers chunks i) ->
  exists out, words_loop fuel self words chunks id start = Some out /\
    (forall c, In c out -> exists s e, spans words c s e) /\
    (forall i, 0 <= i < n -> covers out i).
Proof.
  revert chunks id start.
  induction fuel as [|fuel IH]; intros chunks id start Hstart Hfuel Hgood Hcov;
    cbn [words_loop]; fold n;
    destruct (start <? n) eqn:Hlt;
    try (apply Z.ltb_lt in Hlt); try (apply Z.ltb_ge in Hlt).
  - lia.
  - exists chunks. split; [reflexivity|]. split; [exact Hgood|].
    intros i Hi. apply Hcov; lia.
  - cbv zeta.
    set (end_ := Z.min (start + chunk_size self) n).
    set (c := {| chunk_id := id; text := join " " (slice words start end_);
                 bounds := WordSpan start end_;
                 word_count := Z.of_nat (length (slice words start end_));
                 method := "word-based" |}).
    assert (Hc : spans words c start end_).
    { unfold spans. subst c. cbn [bounds text word_count]. fold n.
      split; [reflexivity|]. split; [lia|]. split; [lia|].
      split; [reflexivity|]. apply slice_length; fold n; lia. }
    assert (Hgood' : forall d, In d (chunks ++ [c]) -> exists s e, spans words d s e).
    { intros d [Hd|[<-|[]]]%in_app_or; [auto|eauto]. }
    destruct (end_ - overlap self <=? start) eqn:Hadv;
      [apply Z.leb_le in Hadv | apply Z.leb_gt in Hadv].
    + exists (chunks ++ [c]). split; [reflexivity|]. split; [exact Hgood'|].
      intros i Hi. destruct (Z.lt_ge_cases i start).
      * apply covers_app, Hcov; lia.
      * apply (covers_last chunks c start end_); [reflexivity|lia].
    + apply IH; [lia|lia|exact Hgood'|].
      intros i Hi Hin. destruct (Z.lt_ge_cases i start).
      * apply covers_app, Hcov; lia.
      * apply (covers_last chunks c start end_); [reflexivity|lia].
  - exists chunks. split; [reflexivity|]. split; [exact Hgood|].
    intros i Hi. apply Hcov; lia.
Qed.

End WordWindows.

(** C8: with [chunk_size > 0] and [0 <= overlap < chunk_size], the call
    returns, every chunk is the window [start_word, end_word) of the split
    text with [0 <= start_word < end_word <= len(words)], and every token
    index from 0 up to the number of tokens lies in one of the windows: the
    windows together are exactly the token sequence. *)
Theorem chunk_by_words_covers (self : t) (text : string) :
  0 < chunk_size self -> 0 <= overlap self < chunk_size self ->
  exists chunks, chunk_by_words self text = Some chunks /\
    (forall c, In c chunks -> exists s e, spans (split text) c s e) /\
    (forall i, 0 <= i < Z.of_nat (length (split text)) -> covers chunks i).
Proof.
  intros Hcs Hov. unfold chunk_by_words.
  apply words_loop_covers; try assumption; try lia.
  intros c [].
Qed.

Lemma chunk_by_words_covers_witness :
  (0 < 3 /\ 0 <= 1 < 3) /\
  exists chunks,
    chunk_by_words {| chunk_size := 3; overlap := 1 |} "a b c d e f" = Some chunks /\
    (forall c, In c chunks -> exists s e, spans (split "a b c d e f") c s e) /\
    (forall i, 0 <= i < Z.of_nat (length (split "a b c d e f")) -> covers chunks i).
Proof.
  split; [lia|].
  apply (chunk_by_words_covers {| chunk_size := 3; overlap := 1 |} "a b c d e f");
    simpl; lia.
Defined.

(** *** Blank input *)

Lemma split_from_blank s :
  string_forall is_space s = true -> split_from EmptyString s = [].
Proof.
  induction s as [|c r IH]; simpl; [reflexivity|].
  intros [Hc Hr]%andb_prop. rewrite Hc. auto.
Qed.

Lemma lstrip_blank s : string_forall is_space s = true -> lstrip s = EmptyString.
Proof.
  induction s as [|c r IH]; simpl; [reflexivity|].
  intros [Hc Hr]%andb_prop. rewrite Hc. auto.
Qed.

Lemma append_cons d s r :
  String.append (String d s) r = String d (String.append s r).
Proof. reflexivity. Qed.

Lemma append_empty_r s : String.append s EmptyString = s.
Proof.
  induction s as [|d s IH]; [reflexivity|]. rewrite append_cons, IH. reflexivity.
Qed.

Lemma append_snoc s c r :
  String.append (snoc s c) r = String.append s (String c r).
Proof.
  unfold snoc. induction s as [|d s IH]; [reflexivity|].
  rewrite !append_cons, IH. reflexivity.
Qed.

Lemma string_forall_snoc p s c :
  string_forall p (snoc s c) = string_forall p s && p c.
Proof.
  unfold snoc. induction s as [|d r IH].
  - simpl. apply andb_comm.
  - rewrite append_cons. simpl. rewrite IH. apply andb_assoc.
Qed.

(** No mark, no match: a blank text is returned as the one piece. *)
Lemma re_split_from_blank cur s :
  string_forall is_space s = true ->
  re_split_from false false cur s = [String.append cur s].
Proof.
  revert cur. induction s as [|c r IH]; intros cur; simpl.
  - intros _. rewrite append_empty_r. reflexivity.
  - intros [Hc Hr]%andb_prop. rewrite Hc, IH by exact Hr.
    rewrite append_snoc. reflexivity.
Qed.

Lemma split_into_sentences_blank s :
  string_forall is_space s = true -> split_into_sentences s = [].
Proof.
  intros H. unfold split_into_sentences, re_split_sentences.
  rewrite re_split_from_blank by exact H.
  change (String.append EmptyString s) with s. cbn [List.filter].
  unfold strip. rewrite lstrip_blank by exact H. reflexivity.
Qed.

(** C10: on the empty string and on every text made of whitespace only, both
    chunkers return the empty list, whatever the configuration. *)
Theorem blank_text_no_chunks (self : t) (text : string) :
  string_forall is_space text = true ->
  chunk_by_words self text = Some [] /\ chunk_by_sentences self text = [].
Proof.
  intros H. split.
  - unfold chunk_by_words, split. rewrite split_from_blank by exact H.
    reflexivity.
  - unfold chunk_by_sentences. rewrite split_into_sentences_blank by exact H.
    reflexivity.
Qed.

Lemma blank_text_no_chunks_witness :
  string_forall is_space "" = true /\
  (chunk_by_words {| chunk_size := 0; overlap := 7 |} "" = Some [] /\
   chunk_by_sentences {| chunk_size := 0; overlap := 7 |} "" = []) /\
  string_forall is_space "  " = true /\
  (chunk_by_words {| chunk_size := 50; overlap := 10 |} "  " = Some [] /\
   chunk_by_sentences {| chunk_size := 50; overlap := 10 |} "  " = []).
Proof.
  split; [reflexivity|]. split.
  - apply (blank_text_no_chunks {| chunk_size := 0; overlap := 7 |} ""). reflexivity.
  - split; [reflexivity|].
    apply (blank_text_no_chunks {| chunk_size := 50; overlap := 10 |} "  ").
    reflexivity.
Defined.

(** *** Sentence groups *)

Lemma last_two_suffix l : exists before, l = before ++ last_two l.
Proof.
  unfold last_two. destruct (2 <=? Z.of_nat (length l)) eqn:H.
  - apply Z.leb_le in H. exists (take (length l - 2) l).
    unfold slice, clamp_index. replace (-2 <? 0) with true by reflexivity.
    destruct (Z.of_nat (length l) <? 0) eqn:H0; [apply Z.ltb_lt in H0; lia|].
    replace (Z.to_nat (Z.max (-2 + Z.of_nat (length l)) 0)) with (length l - 2)%nat by lia.
    rewrite (take_ge (drop _ _)) by (rewrite length_drop; lia).
    symmetry. apply take_drop.
  - exists []. reflexivity.
Qed.

Lemma last_two_length l : (length (last_two l) <= 2)%nat.
Proof.
  unfold last_two. destruct (2 <=? Z.of_nat (length l)) eqn:H.
  - unfold slice. rewrite length_take. unfold clamp_index. replace (-2 <? 0) with true by reflexivity.
    destruct (Z.of_nat (length l) <? 0) eqn:H0; [apply Z.ltb_lt in H0; lia|].
    apply Z.leb_le in H. lia.
  - apply Z.leb_gt in H. lia.
Qed.

Lemma sum_Z_snoc l x : sum_Z (l ++ [x]) = sum_Z l + x.
Proof. induction l as [|y l IH]; simpl; lia. Qed.

Lemma count_words_nonneg s : 0 <= count_words s.
Proof. unfold count_words. lia. Qed.

Lemma sum_count_nonneg l : 0 <= sum_Z (map count_words l).
Proof.
  induction l as [|s l IH]; simpl; [lia|].
  pose proof (count_words_nonneg s). lia.
Qed.

Lemma is_nil_false {A} (l : list A) : is_nil l = false <-> l <> [].
Proof. destruct l; simpl; split; congruence. Qed.

Lemma run_of_grow {A} (run l more : list A) :
  run_of run l -> run_of run (l ++ more).
Proof.
  intros (b & a & ->). exists b, (a ++ more). rewrite <- !app_assoc. reflexivity.
Qed.

Lemma groups_sentence_chunk id run count :
  run <> [] -> groups (sentence_chunk id run count) run.
Proof. intros H. split; [exact H|]. split; reflexivity. Qed.

Section SentenceLoop.
Variable self : t.

Lemma loop_inv_start : loop_inv [] start_state.
Proof.
  split; [exists []; reflexivity|]. split; [congruence|].
  split; [reflexivity|]. intros c [].
Qed.

Lemma loop_inv_step seen st s :
  loop_inv seen st -> loop_inv (seen ++ [s]) (sentence_step self st s).
Proof.
  intros ((before & Hsuf) & Hne & Hcount & Hchunks).
  unfold loop_inv, sentence_step.
  destruct ((st_current_word_count st + count_words s >? chunk_size self)
            && negb (is_nil (st_current_chunk st))) eqn:Hcond;
    cbn [st_chunks st_current_chunk st_current_word_count st_chunk_id].
  - apply andb_prop in Hcond as [_ Hnil].
    apply negb_true_iff, is_nil_false in Hnil.
    destruct (last_two_suffix (st_current_chunk st)) as (q & Hq).
    split; [|split; [|split]].
    + exists (before ++ q). rewrite Hsuf at 1. rewrite Hq at 1.
      rewrite <- !app_assoc. reflexivity.
    + intros _ H. apply app_eq_nil in H as [_ H]. discriminate H.
    + rewrite List.map_app. cbn [List.map]. rewrite sum_Z_snoc. reflexivity.
    + intros c [Hc|[<-|[]]]%in_app_or.
      * destruct (Hchunks c Hc) as (run & Hg & Hr).
        exists run. split; [exact Hg|]. apply run_of_grow, Hr.
      * exists (st_current_chunk st).
        split; [apply groups_sentence_chunk, Hnil|].
        exists before, [s]. rewrite Hsuf at 1. rewrite <- app_assoc. reflexivity.
  - split; [|split; [|split]].
    + exists before. rewrite Hsuf at 1. rewrite <- app_assoc. reflexivity.
    + intros _ H. apply app_eq_nil in H as [_ H]. discriminate H.
    + rewrite List.map_app. cbn [List.map]. rewrite sum_Z_snoc, Hcount.
      reflexivity.
    + intros c Hc. destruct (Hchunks c Hc) as (run & Hg & Hr).
      exists run. split; [exact Hg|]. apply run_of_grow, Hr.
Qed.

Lemma loop_inv_fold rest : forall seen st,
  loop_inv seen st ->
  loop_inv (seen ++ rest) (fold_left (sentence_step self) rest st).
Proof.
  induction rest as [|s rest IH]; intros seen st H; simpl.
  - rewrite app_nil_r. exact H.
  - replace (seen ++ s :: rest) with ((seen ++ [s]) ++ rest)
      by (rewrite <- app_assoc; reflexivity).
    apply IH, loop_inv_step, H.
Qed.

(** A closed chunk stays. *)
Lemma step_keeps_chunks st s c :
  In c (st_chunks st) -> In c (st_chunks (sentence_step self st s)).
Proof.
  intros H. unfold sentence_step.
  destruct (_ && _); cbn [st_chunks]; [apply in_or_app; left|]; exact H.
Qed.

Lemma fold_keeps_chunks rest : forall st c,
  In c (st_chunks st) ->
  In c (st_chunks (fold_left (sentence_step self) rest st)).
Proof.
  induction rest as [|s rest IH]; intros st c H; simpl; [exact H|].
  apply IH, step_keeps_chunks, H.
Qed.

Lemma close_last_keeps_chunks st c : In c (st_chunks st) -> In c (close_last st).
Proof.
  intros H. unfold close_last.
  destruct (negb _); [apply in_or_app; left|]; exact H.
Qed.

(** Every chunk is a group of consecutive whole sentences. *)
Lemma chunk_sentences_groups sentences c :
  In c (chunk_sentences self sentences) ->
  exists run, groups c run /\ run_of run sentences.
Proof.
  unfold chunk_sentences, sentences_loop.
  destruct (loop_inv_fold sentences [] start_state loop_inv_start)
    as ((before & Hsuf) & _ & _ & Hchunks).
  simpl in Hsuf, Hchunks.
  set (st := fold_left (sentence_step self) sentences start_state) in *.
  unfold close_last.
  destruct (is_nil (st_current_chunk st)) eqn:Hnil; cbn [negb].
  - apply Hchunks.
  - intros [Hc|[<-|[]]]%in_app_or; [apply Hchunks, Hc|].
    exists (st_current_chunk st).
    split; [apply groups_sentence_chunk, is_nil_false, Hnil|].
    exists before, []. rewrite app_nil_r. exact Hsuf.
Qed.

(** Reading a sentence longer than [chunk_size] leaves it last in the open
    group, behind at most two carried sentences, with the count above
    [chunk_size]. *)
Lemma oversize_step seen st s :
  loop_inv seen st -> chunk_size self < count_words s ->
  exists carried,
    st_current_chunk (sentence_step self st s) = carried ++ [s] /\
    (length carried <= 2)%nat /\ (exists before, seen = before ++ carried) /\
    chunk_size self < st_current_word_count (sentence_step self st s).
Proof.
  intros ((before & Hsuf) & Hne & Hcount & _) Hbig.
  pose proof (sum_count_nonneg (st_current_chunk st)) as Hpos.
  unfold sentence_step.
  destruct ((st_current_word_count st + count_words s >? chunk_size self)
            && negb (is_nil (st_current_chunk st))) eqn:Hcond;
    cbn [st_chunks st_current_chunk st_current_word_count st_chunk_id].
  - exists (last_two (st_current_chunk st)).
    split; [reflexivity|]. split; [apply last_two_length|].
    destruct (last_two_suffix (st_current_chunk st)) as (q & Hq).
    split.
    + exists (before ++ q). rewrite Hsuf at 1. rewrite Hq at 1.
      rewrite <- app_assoc. reflexivity.
    + pose proof (sum_count_nonneg (last_two (st_current_chunk st))). lia.
  - apply andb_false_iff in Hcond as [Hcond|Hcond].
    + rewrite Z.gtb_ltb in Hcond. apply Z.ltb_ge in Hcond. lia.
    + apply negb_false_iff in Hcond.
      destruct (st_current_chunk st) as [|x l] eqn:Hcur; [|discriminate Hcond].
      exists []. split; [reflexivity|]. split; [simpl; lia|].
      split; [exists seen; rewrite app_nil_r; reflexivity|].
      rewrite Hcount. simpl. lia.
Qed.

(** The chunk that a sentence longer than [chunk_size] ends. *)
Lemma oversize_sentence_chunk before s after :
  chunk_size self < count_words s ->
  exists c carried,
    In c (chunk_sentences self (before ++ s :: after)) /\
    (length carried <= 2)%nat /\ (exists front, before = front ++ carried) /\
    groups c (carried ++ [s]).
Proof.
  intros Hbig. unfold chunk_sentences, sentences_loop.
  rewrite fold_left_app. cbn [fold_left].
  pose proof (loop_inv_fold before [] start_state loop_inv_start) as Hinv.
  simpl in Hinv.
  set (st1 := fold_left (sentence_step self) before start_state) in *.
  destruct (oversize_step before st1 s Hinv Hbig)
    as (carried & Hcur & Hlen & Hsuf & Hcount).
  set (st2 := sentence_step self st1 s) in *.
  assert (Hne : carried ++ [s] <> []).
  { intros H. apply app_eq_nil in H as [_ H]. discriminate H. }
  exists (sentence_chunk (st_chunk_id st2) (carried ++ [s]) (st_current_word_count st2)),
         carried.
  split; [|split; [exact Hlen|split; [exact Hsuf|apply groups_sentence_chunk, Hne]]].
  destruct after as [|t after]; cbn [fold_left].
  - unfold close_last. rewrite Hcur.
    replace (is_nil (carried ++ [s])) with false
      by (symmetry; apply is_nil_false, Hne).
    apply in_or_app. right. left. reflexivity.
  - apply close_last_keeps_chunks, fold_keeps_chunks.
    unfold sentence_step at 1. rewrite Hcur.
    replace (is_nil (carried ++ [s])) with false
      by (symmetry; apply is_nil_false, Hne).
    pose proof (count_words_nonneg t).
    replace (st_current_word_count st2 + count_words t >? chunk_size self)
      with true by (symmetry; rewrite Z.gtb_ltb; apply Z.ltb_lt; lia).
    cbn [andb negb st_chunks]. apply in_or_app. right. left. reflexivity.
Qed.

(** *** Where a long sentence ends up *)

Lemma last_two_exact l : length (last_two l) = Nat.min 2 (length l).
Proof.
  unfold last_two. destruct (2 <=? Z.of_nat (length l)) eqn:H.
  - apply Z.leb_le in H. unfold slice, clamp_index.
    replace (-2 <? 0) with true by reflexivity.
    destruct (Z.of_nat (length l) <? 0) eqn:H0; [apply Z.ltb_lt in H0; lia|].
    rewrite length_take, length_drop. lia.
  - apply Z.leb_gt in H. lia.
Qed.

Lemma nth_error_prefix {A} (l extra : list A) i x :
  nth_error l i = Some x -> nth_error (l ++ extra) i = Some x.
Proof.
  intros H. rewrite nth_error_app1; [exact H|].
  apply nth_error_Some. congruence.
Qed.

Lemma nth_error_snoc_last {A} (l : list A) x :
  nth_error (l ++ [x]) (length l) = Some x.
Proof.
  rewrite nth_error_app2 by lia. rewrite Nat.sub_diag. reflexivity.
Qed.

(** The closed chunks are only ever appended to. *)
Lemma step_chunks_prefix st s :
  exists extra, st_chunks (sentence_step self st s) = st_chunks st ++ extra.
Proof.
  unfold sentence_step. destruct (_ && _); cbn [st_chunks].
  - eexists. reflexivity.
  - exists []. rewrite app_nil_r. reflexivity.
Qed.

Lemma fold_chunks_prefix rest : forall st,
  exists extra,
    st_chunks (fold_left (sentence_step self) rest st) = st_chunks st ++ extra.
Proof.
  induction rest as [|s rest IH]; intros st; cbn [fold_left].
  - exists []. rewrite app_nil_r. reflexivity.
  - destruct (IH (sentence_step self st s)) as (extra & ->).
    destruct (step_chunks_prefix st s) as (extra' & ->).
    exists (extra' ++ extra). rewrite <- app_assoc. reflexivity.
Qed.

Lemma close_last_prefix st : exists extra, close_last st = st_chunks st ++ extra.
Proof.
  unfold close_last. destruct (negb _).
  - eexists. reflexivity.
  - exists []. rewrite app_nil_r. reflexivity.
Qed.

(** A closed chunk keeps its position to the end. *)
Lemma closed_chunk_stays rest st i c :
  nth_error (st_chunks st) i = Some c ->
  nth_error (close_last (fold_left (sentence_step self) rest st)) i = Some c.
Proof.
  intros H.
  destruct (close_last_prefix (fold_left (sentence_step self) rest st)) as (e1 & ->).
  destruct (fold_chunks_prefix rest st) as (e2 & ->).
  apply nth_error_prefix, nth_error_prefix, H.
Qed.

(** An open group above [chunk_size] is closed as it stands, by the next
    sentence or at the end, and becomes the next chunk. *)
Lemma open_group_closes rest st :
  st_current_chunk st <> [] -> chunk_size self < st_current_word_count st ->
  nth_error (close_last (fold_left (sentence_step self) rest st))
            (length (st_chunks st))
  = Some (sentence_chunk (st_chunk_id st) (st_current_chunk st)
                         (st_current_word_count st)).
Proof.
  intros Hne Hbig. destruct rest as [|t rest]; cbn [fold_left].
  - unfold close_last.
    replace (is_nil (st_current_chunk st)) with false
      by (symmetry; apply is_nil_false, Hne).
    apply nth_error_snoc_last.
  - apply closed_chunk_stays. unfold sentence_step.
    replace (is_nil (st_current_chunk st)) with false
      by (symmetry; apply is_nil_false, Hne).
    pose proof (count_words_nonneg t).
    replace (st_current_word_count st + count_words t >? chunk_size self)
      with true by (symmetry; rewrite Z.gtb_ltb; apply Z.ltb_lt; lia).
    cbn [andb negb st_chunks]. apply nth_error_snoc_last.
Qed.

(** The chunk that a sentence longer than [chunk_size] ends, and the chunk
    before it. *)
Lemma oversize_sentence_place before s after :
  chunk_size self < count_words s ->
  exists k c carried,
    nth_error (chunk_sentences self (before ++ s :: after)) k = Some c /\
    groups c (carried ++ [s]) /\
    (exists front, before = front ++ carried) /\
    (carried = [] <-> before = []) /\
    (before = [] -> k = 0%nat) /\
    (before <> [] ->
     exists j prev run,
       k = S j /\
       nth_error (chunk_sentences self (before ++ s :: after)) j = Some prev /\
       groups prev run /\
       (exists front, before = front ++ run) /\
       (exists front, run = front ++ carried) /\
       length carried = Nat.min 2 (length run)).
Proof.
  intros Hbig. unfold chunk_sentences, sentences_loop.
  rewrite fold_left_app. cbn [fold_left].
  pose proof (loop_inv_fold before [] start_state loop_inv_start) as Hinv.
  simpl in Hinv.
  set (st1 := fold_left (sentence_step self) before start_state) in *.
  destruct Hinv as ((front & Hsuf) & Hne & Hcount & _).
  pose proof (sum_count_nonneg (st_current_chunk st1)) as Hpos.
  destruct before as [|b before'].
  - (* the first sentence: nothing is open, nothing is closed *)
    subst st1. cbn [fold_left].
    assert (Hstep : sentence_step self start_state s =
              {| st_chunks := []; st_current_chunk := [s];
                 st_current_word_count := count_words s;
                 st_chunk_id := 0 |}).
    { unfold sentence_step, start_state.
      cbn [st_chunks st_current_chunk st_current_word_count st_chunk_id is_nil negb].
      rewrite andb_false_r. reflexivity. }
    set (st2 := sentence_step self start_state s) in *.
    assert (Hcur : st_current_chunk st2 = [s]) by (rewrite Hstep; reflexivity).
    assert (Hchunks : st_chunks st2 = []) by (rewrite Hstep; reflexivity).
    assert (Hcnt : st_current_word_count st2 = count_words s)
      by (rewrite Hstep; reflexivity).
    exists 0%nat, (sentence_chunk (st_chunk_id st2) [s] (count_words s)), [].
    split.
    { pose proof (open_group_closes after st2) as H.
      rewrite Hcur, Hchunks, Hcnt in H. apply H; [discriminate|exact Hbig]. }
    split; [apply groups_sentence_chunk; discriminate|].
    split; [exists []; reflexivity|].
    split; [split; reflexivity|].
    split; [reflexivity|]. intros H. contradiction.
  - (* a later sentence: the open group is closed and two of it carried *)
    assert (Hcur1 : st_current_chunk st1 <> []) by (apply Hne; discriminate).
    set (prev := sentence_chunk (st_chunk_id st1) (st_current_chunk st1)
                                (st_current_word_count st1)).
    set (carried := last_two (st_current_chunk st1)).
    assert (Hstep : sentence_step self st1 s =
              {| st_chunks := st_chunks st1 ++ [prev];
                 st_current_chunk := carried ++ [s];
                 st_current_word_count :=
                   sum_Z (map count_words carried) + count_words s;
                 st_chunk_id := st_chunk_id st1 + 1 |}).
    { unfold sentence_step.
      replace (is_nil (st_current_chunk st1)) with false
        by (symmetry; apply is_nil_false, Hcur1).
      replace (st_current_word_count st1 + count_words s >? chunk_size self)
        with true by (symmetry; rewrite Z.gtb_ltb; apply Z.ltb_lt; lia).
      reflexivity. }
    set (st2 := sentence_step self st1 s) in *.
    assert (Hcarried : carried <> []).
    { intros E. pose proof (last_two_exact (st_current_chunk st1)) as Hl.
      fold carried in Hl. rewrite E in Hl.
      destruct (st_current_chunk st1); [congruence|simpl in Hl; lia]. }
    destruct (last_two_suffix (st_current_chunk st1)) as (q & Hq). fold carried in Hq.
    exists (S (length (st_chunks st1))),
           (sentence_chunk (st_chunk_id st2) (carried ++ [s])
                           (st_current_word_count st2)),
           carried.
    split.
    { pose proof (open_group_closes after st2) as H.
      rewrite Hstep in H. cbn [st_chunks st_current_chunk st_current_word_count st_chunk_id] in H.
      rewrite length_app, Nat.add_1_r in H. rewrite Hstep.
      cbn [st_chunk_id st_current_word_count]. apply H.
      - intros E. apply app_eq_nil in E as [_ E]. discriminate E.
      - pose proof (sum_count_nonneg carried). lia. }
    split.
    { apply groups_sentence_chunk. intros E. apply app_eq_nil in E as [_ E].
      discriminate E. }
    split.
    { exists (front ++ q). rewrite Hsuf at 1. rewrite Hq at 1.
      rewrite <- app_assoc. reflexivity. }
    split; [split; [intros E; contradiction|discriminate]|].
    split; [discriminate|]. intros _.
    exists (length (st_chunks st1)), prev, (st_current_chunk st1).
    split; [reflexivity|]. split.
    { apply closed_chunk_stays. rewrite Hstep. cbn [st_chunks].
      apply nth_error_snoc_last. }
    split; [apply groups_sentence_chunk, Hcur1|].
    split; [exists front; exact Hsuf|].
    split; [exists q; exact Hq|].
    apply last_two_exact.
Qed.

End SentenceLoop.

(** C6, counterexample: with [chunk_size = 3] the second sentence of
    ["a b. c d e f g."] has five words, and the only chunk that holds it
    also holds the sentence before it; no chunk is that sentence alone. *)
Lemma oversize_sentence_not_alone :
  split_into_sentences "a b. c d e f g." = ["a b."; "c d e f g."] /\
  count_words "c d e f g." = 5 /\
  map text (chunk_by_sentences {| chunk_size := 3; overlap := 0 |} "a b. c d e f g.")
    = ["a b."; "a b. c d e f g."] /\
  ~ (exists c, In c (chunk_by_sentences {| chunk_size := 3; overlap := 0 |}
                                        "a b. c d e f g.")
               /\ text c = "c d e f g.").
Proof.
  split; [reflexivity|]. split; [reflexivity|]. split; [reflexivity|].
  intros (c & Hin & Htext). vm_compute in Hin.
  destruct Hin as [<-|[<-|[]]]; discriminate Htext.
Qed.

(** C6, as the code has it.  No sentence is ever split: every chunk's text
    is the single-space join of a non-empty run of whole, consecutive
    sentences of [split_into_sentences text].  A sentence whose word count
    exceeds [chunk_size] is the last sentence of the chunk at some position
    [k].  When it is the first sentence of the text it is alone there, and
    [k = 0].  Otherwise it is not alone: the chunk right before, at [k - 1],
    groups a run of sentences that ends just before it, and what precedes
    it in its own chunk is exactly the last two sentences of that run (the
    last one, when the run has only one). *)
Theorem chunk_by_sentences_whole_sentences (self : t) (text : string) :
  (forall c, In c (chunk_by_sentences self text) ->
     exists run, groups c run /\ run_of run (split_into_sentences text)) /\
  (forall before s after,
     split_into_sentences text = before ++ s :: after ->
     chunk_size self < count_words s ->
     exists k c carried,
       nth_error (chunk_by_sentences self text) k = Some c /\
       groups c (carried ++ [s]) /\
       (exists front, before = front ++ carried) /\
       (carried = [] <-> before = []) /\
       (before = [] -> k = 0%nat) /\
       (before <> [] ->
        exists j prev run,
          k = S j /\
          nth_error (chunk_by_sentences self text) j = Some prev /\
          groups prev run /\
          (exists front, before = front ++ run) /\
          (exists front, run = front ++ carried) /\
          length carried = Nat.min 2 (length run))).
Proof.
  unfold chunk_by_sentences. split.
  - intros c. apply chunk_sentences_groups.
  - intros before s after -> Hbig. apply oversize_sentence_place, Hbig.
Qed.

Lemma chunk_by_sentences_whole_sentences_witness :
  exists k c carried,
    nth_error (chunk_by_sentences {| chunk_size := 3; overlap := 0 |}
                                  "a b. c d e f g.") k = Some c /\
    groups c (carried ++ ["c d e f g."]) /\
    (exists front, ["a b."] = front ++ carried) /\
    (carried = [] <-> ["a b."] = []) /\
    (["a b."] = [] -> k = 0%nat) /\
    (["a b."] <> [] ->
     exists j prev run,
       k = S j /\
       nth_error (chunk_by_sentences {| chunk_size := 3; overlap := 0 |}
                                     "a b. c d e f g.") j = Some prev /\
       groups prev run /\
       (exists front, ["a b."] = front ++ run) /\
       (exists front, run = front ++ carried) /\
       length carried = Nat.min 2 (length run)).
Proof.
  apply (proj2 (chunk_by_sentences_whole_sentences
                  {| chunk_size := 3; overlap := 0 |} "a b. c d e f g.")
               ["a b."] "c d e f g." []);
    [reflexivity | vm_compute; reflexivity].
Defined.

End ChunkerFacts.

(** ** The FAQ finder *)

Module FinderFacts.
Import PyStr TextCleaner FAQFinder.

(** *** Synonym expansion *)

Lemma expand_from_superset (self : t) (X base : gset string) :
  base ⊆ set_fold (fun word (expanded : gset string) =>
                     match synonyms self !! word with
                     | Some syns => expanded ∪ list_to_set syns
                     | None => expanded
                     end) base X.
Proof.
  apply (set_fold_ind_L (fun r _ => base ⊆ r)); [set_solver|].
  intros x Y r _ IH. destruct (synonyms self !! x); set_solver.
Qed.

(** The words themselves are kept. *)
Lemma expand_superset self (X : gset string) : X ⊆ expand_with_synonyms self X.
Proof. apply expand_from_superset. Qed.

(** X26: One level deep: a word of the expansion is a word of the set or is
    listed under a word of the set. *)
Lemma elem_of_expand self (X : gset string) (x : string) :
  x ∈ expand_with_synonyms self X <->
  x ∈ X \/ exists w syns, w ∈ X /\ synonyms self !! w = Some syns /\ x ∈ syns.
Proof.
  unfold expand_with_synonyms. generalize X at 1 3 as base. intros base.
  apply (set_fold_ind_L
           (fun r (Y : gset string) =>
              x ∈ r <->
              x ∈ base \/ exists w syns,
                  w ∈ Y /\ synonyms self !! w = Some syns /\ x ∈ syns)).
  - split; [auto|]. intros [H|(w & syns & Hw & _)]; [exact H|set_solver].
  - intros w Y r Hfresh IH.
    destruct (synonyms self !! w) as [syns|] eqn:Hw.
    + rewrite elem_of_union, IH, elem_of_list_to_set. split.
      * intros [[H|(w' & syns' & Hin & Hl & Hx)]|H]; [left; exact H| |].
        -- right. exists w', syns'.
           split; [apply elem_of_union; right; exact Hin|]. split; assumption.
        -- right. exists w, syns.
           split; [apply elem_of_union; left; apply elem_of_singleton; reflexivity|].
           split; assumption.
      * intros [H|(w' & syns' & Hin & Hl & Hx)]; [left; left; exact H|].
        apply elem_of_union in Hin as [Hin|Hin].
        -- apply elem_of_singleton in Hin. subst w'.
           rewrite Hw in Hl. injection Hl as <-. right. exact Hx.
        -- left. right. exists w', syns'. split; [exact Hin|]. split; assumption.
    + rewrite IH. split.
      * intros [H|(w' & syns' & Hin & Hl & Hx)]; [left; exact H|].
        right. exists w', syns'.
        split; [apply elem_of_union; right; exact Hin|]. split; assumption.
      * intros [H|(w' & syns' & Hin & Hl & Hx)]; [left; exact H|].
        apply elem_of_union in Hin as [Hin|Hin].
        -- apply elem_of_singleton in Hin. subst w'. congruence.
        -- right. exists w', syns'. split; [exact Hin|]. split; assumption.
Qed.

Lemma expand_empty_iff self (X : gset string) :
  expand_with_synonyms self X = ∅ <-> X = ∅.
Proof.
  split.
  - intros H. pose proof (expand_superset self X) as Hsub. set_solver.
  - intros ->. reflexivity.
Qed.

Lemma set_is_empty_expand self (X : gset string) :
  set_is_empty (expand_with_synonyms self X) = set_is_empty X.
Proof.
  unfold set_is_empty. apply bool_decide_ext, expand_empty_iff.
Qed.

(** *** The query word set *)

(** C7, counterexample: for the query ["when"], whose one token is a stop
    word, the code matches on the plain token while the pipeline of the
    specification would match on the token and its three synonyms. *)
Lemma fallback_is_not_expanded :
  user_words init "when" = {[ "when" ]} /\
  query_set_spec init "when" = {[ "when"; "time"; "schedule"; "start" ]} /\
  user_words init "when" <> query_set_spec init "when".
Proof.
  split; [vm_compute; reflexivity|]. split; [vm_compute; reflexivity|].
  vm_compute. discriminate.
Qed.

(** C7, as the code has it: the stop words are removed from the token set
    and what is left is expanded; when nothing is left, the query set is
    the token set as it is, not expanded.  The specification's pipeline
    differs in the second case only, where it expands the token set. *)
Theorem user_words_fallback (self : t) (query : string) :
  let tokens : gset string := list_to_set (tokenize query) in
  let filtered := tokens ∖ stop_words self in
  user_words self query =
    (if set_is_empty filtered then tokens
     else expand_with_synonyms self filtered) /\
  query_set_spec self query =
    (if set_is_empty filtered then expand_with_synonyms self tokens
     else expand_with_synonyms self filtered).
Proof.
  intros tokens filtered. split.
  - unfold user_words, match_words. fold (tokenize query). fold tokens filtered.
    rewrite set_is_empty_expand. reflexivity.
  - unfold query_set_spec. fold tokens filtered.
    destruct (set_is_empty filtered); reflexivity.
Qed.

(** *** Results of [find_answer] *)

(** While no entry has been chosen, the best score is still the initial 0. *)
Lemma best_step_unchosen self uw best faq :
  (fst best = None -> snd best = 0%Q) ->
  fst (best_step self uw best faq) = None ->
  snd (best_step self uw best faq) = 0%Q.
Proof.
  intros H. unfold best_step.
  destruct (Qgt_bool _ _); simpl; [discriminate|exact H].
Qed.

Lemma best_fold_unchosen self uw entries : forall best,
  (fst best = None -> snd best = 0%Q) ->
  fst (fold_left (best_step self uw) entries best) = None ->
  snd (fold_left (best_step self uw) entries best) = 0%Q.
Proof.
  induction entries as [|faq entries IH]; intros best H; simpl; [exact H|].
  apply IH. apply best_step_unchosen, H.
Qed.

(** With no stored entry the call returns the "no data" result. *)
Lemma find_answer_no_faqs self query threshold :
  faqs self = [] ->
  find_answer self query threshold =
    Ok {| r_answer := NO_FAQS; confidence := 0%Q; matched_question := None |}.
Proof. intros H. unfold find_answer. rewrite H. reflexivity. Qed.

(** With a positive threshold the call returns a result, for every corpus
    and every query. *)
Lemma find_answer_returns self query threshold :
  (0 < threshold)%Q -> returns (find_answer self query threshold).
Proof.
  intros Hth. unfold find_answer.
  destruct (is_nil (faqs self)); [eexists; reflexivity|].
  pose proof (best_fold_unchosen self (user_words self query) (faqs self)
                (None, 0%Q) (fun _ => eq_refl)) as Hnone.
  destruct (fold_left _ _ _) as [best_match best_score]. simpl in Hnone.
  destruct (Qlt_bool best_score threshold) eqn:Hlt; [eexists; reflexivity|].
  destruct best_match as [faq|]; [eexists; reflexivity|].
  rewrite (Hnone eq_refl) in Hlt. unfold Qlt_bool in Hlt.
  apply negb_false_iff, Qle_bool_iff in Hlt.
  exfalso. exact (Qlt_not_le _ _ Hth Hlt).
Qed.

(** C1, at threshold 0: no stored question shares a word with the query, so
    no entry is ever chosen and the best score stays 0.0; that is not below
    the threshold, and the code subscripts [best_match], which is [None]. *)
Theorem find_answer_raises_at_zero_threshold :
  find_answer (add_faq init "How do I register for the event?" "Visit our website")
              "What's the weather like?" 0%Q
  = Raise (TypeError "'NoneType' object is not subscriptable").
Proof. vm_compute. reflexivity. Qed.

(** *** Stop words in the compared sets *)




End FinderFacts.

(** ** Tokens *)

Module TokenFacts.
Import PyStr TextCleaner CleanerFacts.

(** *** What [str.split] returns *)

Lemma snoc_not_empty cur c : is_empty (snoc cur c) = false.
Proof. destruct cur; reflexivity. Qed.

Lemma snoc_forall p cur c :
  string_forall p (snoc cur c) = string_forall p cur && p c.
Proof.
  unfold snoc. induction cur as [|d r IH].
  - simpl. apply andb_comm.
  - change (string_forall p (String d (String.append r (String c EmptyString)))
            = string_forall p (String d r) && p c).
    simpl. rewrite IH. apply andb_assoc.
Qed.

Lemma split_from_forall p s : forall cur w,
  string_forall p cur = true -> string_forall p s = true ->
  In w (split_from cur s) -> string_forall p w = true.
Proof.
  induction s as [|c r IH]; intros cur w Hcur Hs; simpl.
  - destruct (is_empty cur); [intros []|]. intros [<-|[]]. exact Hcur.
  - simpl in Hs. apply andb_prop in Hs as [Hc Hr].
    destruct (is_space c).
    + destruct (is_empty cur).
      * apply IH; [reflexivity|exact Hr].
      * intros [<-|Hw]; [exact Hcur|]. revert Hw. apply IH; [reflexivity|exact Hr].
    + apply IH; [|exact Hr]. rewrite snoc_forall, Hcur, Hc. reflexivity.
Qed.

Lemma split_from_words s : forall cur w,
  string_forall not_space cur = true ->
  In w (split_from cur s) ->
  is_empty w = false /\ string_forall not_space w = true.
Proof.
  induction s as [|c r IH]; intros cur w Hcur; simpl.
  - destruct (is_empty cur) eqn:He; [intros []|]. intros [<-|[]]. auto.
  - destruct (is_space c) eqn:Hc.
    + destruct (is_empty cur) eqn:He.
      * apply IH. reflexivity.
      * intros [<-|Hw]; [auto|]. revert Hw. apply IH. reflexivity.
    + intros Hw. apply (IH (snoc cur c)); [|exact Hw].
      rewrite snoc_forall, Hcur. unfold not_space. rewrite Hc. reflexivity.
Qed.

(** A word returned by [split] is not empty and holds no whitespace. *)
Lemma split_words s w :
  In w (split s) -> is_empty w = false /\ string_forall not_space w = true.
Proof. apply split_from_words. reflexivity. Qed.

Lemma token_char_of_clean c :
  clean_char c = true -> not_space c = true -> token_char c = true.
Proof. by_cases_on_char c. Qed.

Lemma string_forall_token w :
  string_forall clean_char w = true -> string_forall not_space w = true ->
  string_forall token_char w = true.
Proof.
  induction w as [|c r IH]; simpl; [reflexivity|].
  intros [Hc Hr]%andb_prop [Hn Hnr]%andb_prop.
  rewrite (token_char_of_clean c Hc Hn). simpl. auto.
Qed.

(** X1: Every token is a non-empty string of letters [a-z] and digits. *)
Theorem tokenize_tokens (text w : string) :
  In w (tokenize text) ->
  is_empty w = false /\ string_forall token_char w = true.
Proof.
  unfold tokenize. intros Hw.
  destruct (split_words _ _ Hw) as [Hne Hns]. split; [exact Hne|].
  apply string_forall_token; [|exact Hns].
  apply (split_from_forall clean_char (clean_text text) EmptyString w);
    [reflexivity|apply clean_text_alphabet|exact Hw].
Qed.

Lemma tokenize_tokens_witness :
  In "9999" (tokenize "Price: $99.99 (AMAZING Deal!!!)") /\
  is_empty "9999" = false /\ string_forall token_char "9999" = true.
Proof.
  split; [vm_compute; tauto|].
  apply (tokenize_tokens "Price: $99.99 (AMAZING Deal!!!)" "9999").
  vm_compute. tauto.
Defined.

(** *** Splitting a stripped text *)

Lemma split_from_blank_any s : forall cur,
  string_forall is_space s = true ->
  split_from cur s = if is_empty cur then [] else [cur].
Proof.
  induction s as [|c r IH]; intros cur; simpl; [reflexivity|].
  intros [Hc Hr]%andb_prop. rewrite Hc.
  destruct (is_empty cur); rewrite (IH EmptyString Hr); reflexivity.
Qed.

Lemma rstrip_empty s : rstrip s = EmptyString -> string_forall is_space s = true.
Proof.
  induction s as [|c r IH]; simpl; [reflexivity|].
  destruct (rstrip r) as [|d r'] eqn:E; [|discriminate].
  destruct (is_space c); [|discriminate]. intros _. apply IH. reflexivity.
Qed.

Lemma split_from_cons cur c r :
  split_from cur (String c r) =
  if is_space c
  then (if is_empty cur then split_from EmptyString r
        else cur :: split_from EmptyString r)
  else split_from (snoc cur c) r.
Proof. reflexivity. Qed.

Lemma split_from_rstrip s : forall cur,
  split_from cur (rstrip s) = split_from cur s.
Proof.
  induction s as [|c r IH]; intros cur; [reflexivity|].
  cbn [rstrip]. destruct (rstrip r) as [|d r'] eqn:E.
  - pose proof (rstrip_empty r E) as Hblank.
    destruct (is_space c) eqn:Hc; simpl; rewrite Hc.
    + rewrite (split_from_blank_any r EmptyString Hblank).
      destruct (is_empty cur); reflexivity.
    + rewrite (split_from_blank_any r (snoc cur c) Hblank), snoc_not_empty.
      reflexivity.
  - rewrite (split_from_cons cur c (String d r')), (split_from_cons cur c r), !IH.
    reflexivity.
Qed.

Lemma split_lstrip s : split (lstrip s) = split s.
Proof.
  unfold split. induction s as [|c r IH]; simpl; [reflexivity|].
  destruct (is_space c) eqn:Hc; [exact IH|]. simpl. rewrite Hc. reflexivity.
Qed.

Lemma split_strip s : split (strip s) = split s.
Proof.
  unfold strip, split. rewrite split_from_rstrip. apply split_lstrip.
Qed.

(** X2: Cleaning a text first does not change its tokens, although it may
    change the cleaned text (by one outer space). *)
Theorem tokenize_clean_text (text : string) :
  tokenize (clean_text text) = tokenize text /\
  get_word_count (clean_text text) = get_word_count text.
Proof.
  assert (H : tokenize (clean_text text) = tokenize text).
  { unfold tokenize. rewrite clean_text_twice. apply split_strip. }
  split; [exact H|]. unfold get_word_count. rewrite H. reflexivity.
Qed.

(** *** What [strip] returns *)

Lemma lstrip_head s : starts_with_whitespace (lstrip s) = false.
Proof.
  induction s as [|c r IH]; simpl; [reflexivity|].
  destruct (is_space c) eqn:Hc; [exact IH|]. simpl. exact Hc.
Qed.

Lemma rstrip_keeps_head s :
  starts_with_whitespace s = false -> starts_with_whitespace (rstrip s) = false.
Proof.
  destruct s as [|c r]; [reflexivity|]. simpl. intros Hc.
  destruct (rstrip r); [rewrite Hc|]; simpl; auto.
Qed.

Lemma rstrip_tail s : ends_with_whitespace (rstrip s) = false.
Proof.
  induction s as [|c r IH]; [reflexivity|].
  cbn [rstrip]. destruct (rstrip r) as [|d r'].
  - destruct (is_space c) eqn:Hc; simpl; [reflexivity|exact Hc].
  - exact IH.
Qed.

Lemma strip_head s : starts_with_whitespace (strip s) = false.
Proof. apply rstrip_keeps_head, lstrip_head. Qed.

Lemma strip_tail s : ends_with_whitespace (strip s) = false.
Proof. apply rstrip_tail. Qed.

Lemma lstrip_fixed s : starts_with_whitespace s = false -> lstrip s = s.
Proof. destruct s as [|c r]; [reflexivity|]. simpl. intros ->. reflexivity. Qed.

Lemma rstrip_cons c r :
  rstrip (String c r) =
  match rstrip r with
  | EmptyString => if is_space c then EmptyString else String c EmptyString
  | r' => String c r'
  end.
Proof. reflexivity. Qed.

Lemma rstrip_fixed s : ends_with_whitespace s = false -> rstrip s = s.
Proof.
  induction s as [|c r IH]; [reflexivity|].
  destruct r as [|d r'].
  - simpl. intros ->. reflexivity.
  - intros H. rewrite rstrip_cons, (IH H). reflexivity.
Qed.

Lemma strip_fixed s :
  starts_with_whitespace s = false -> ends_with_whitespace s = false ->
  strip s = s.
Proof.
  intros Hh Ht. unfold strip. rewrite (lstrip_fixed s Hh). apply rstrip_fixed, Ht.
Qed.

(** [strip] is idempotent. *)
Lemma strip_strip s : strip (strip s) = strip s.
Proof. apply strip_fixed; [apply strip_head|apply strip_tail]. Qed.

(** X3: Two cleanings reach a text that further cleaning leaves alone. *)
Theorem clean_text_stable_after_two (text : string) :
  clean_text (clean_text (clean_text text)) = clean_text (clean_text text).
Proof. rewrite (clean_text_twice (clean_text text)), !clean_text_twice. apply strip_strip. Qed.

(** *** [split] and [join] *)

Lemma join_cons sep x y l :
  join sep (x :: y :: l) = String.append x (String.append sep (join sep (y :: l))).
Proof. reflexivity. Qed.

Lemma split_from_word w : forall cur r,
  string_forall not_space w = true ->
  split_from cur (String.append w r) = split_from (String.append cur w) r.
Proof.
  induction w as [|c w IH]; intros cur r.
  - intros _. rewrite ChunkerFacts.append_empty_r. reflexivity.
  - intros H. cbn [string_forall] in H. apply andb_prop in H as [Hc Hw].
    rewrite ChunkerFacts.append_cons, split_from_cons.
    unfold not_space in Hc. apply negb_true_iff in Hc. rewrite Hc.
    rewrite (IH _ _ Hw), ChunkerFacts.append_snoc. reflexivity.
Qed.

(** Splitting at a space splits the word lists. *)
Lemma split_from_space a : forall cur b,
  split_from cur (String.append a (String " " b)) =
  split_from cur a ++ split_from EmptyString b.
Proof.
  induction a as [|c a IH]; intros cur b.
  - change (split_from cur (String " " b) = split_from cur EmptyString ++ split_from EmptyString b).
    rewrite split_from_cons. simpl. destruct (is_empty cur); reflexivity.
  - rewrite ChunkerFacts.append_cons, !split_from_cons.
    destruct (is_space c); [destruct (is_empty cur)|]; rewrite IH; reflexivity.
Qed.

Lemma split_join_cons x y l :
  split (join " " (x :: y :: l)) = split x ++ split (join " " (y :: l)).
Proof. rewrite join_cons. apply split_from_space. Qed.

(** Words joined by spaces split back into the same words. *)
Lemma split_join_words (words : list string) :
  (forall w, In w words ->
     is_empty w = false /\ string_forall not_space w = true) ->
  split (join " " words) = words.
Proof.
  induction words as [|x [|y l] IH]; intros H.
  - reflexivity.
  - destruct (H x (or_introl eq_refl)) as [Hne Hns].
    change (split x = [x]). unfold split.
    rewrite <- (ChunkerFacts.append_empty_r x) at 1.
    rewrite (split_from_word x EmptyString EmptyString Hns).
    change (String.append EmptyString x) with x. simpl.
    rewrite Hne. reflexivity.
  - rewrite split_join_cons, IH by (intros w Hw; apply H; right; exact Hw).
    destruct (H x (or_introl eq_refl)) as [Hne Hns].
    unfold split. rewrite <- (ChunkerFacts.append_empty_r x) at 1.
    rewrite (split_from_word x EmptyString EmptyString Hns).
    change (String.append EmptyString x) with x. simpl.
    rewrite Hne. reflexivity.
Qed.

(** The words of a text, joined by single spaces and split again, are the
    same words. *)
Theorem split_join_split (text : string) :
  split (join " " (split text)) = split text.
Proof. apply split_join_words. intros w. apply split_words. Qed.

(** *** The canonical form of a text *)

Lemma blank_no_whitespace s :
  starts_with_whitespace s = false -> starts_with_space s = false.
Proof.
  destruct s as [|c r]; [reflexivity|]. simpl. intros Hc.
  destruct (is_blank c) eqn:Hb; [|reflexivity].
  apply is_space_blank in Hb. congruence.
Qed.

Lemma blank_no_whitespace_end s :
  ends_with_whitespace s = false -> ends_with_space s = false.
Proof.
  induction s as [|c r IH]; [reflexivity|].
  destruct r as [|d r'].
  - simpl. intros Hc. destruct (is_blank c) eqn:Hb; [|reflexivity].
    apply is_space_blank in Hb. congruence.
  - exact IH.
Qed.

Lemma join_single x : join " " [x] = x.
Proof. reflexivity. Qed.

Lemma join_split_from t : forall cur,
  string_forall clean_char t = true -> single_spaced t = true ->
  ends_with_space t = false ->
  (is_empty cur = true -> starts_with_space t = false) ->
  join " " (split_from cur t) = String.append cur t.
Proof.
  induction t as [|c r IH]; intros cur Hall Hss Hend Hstart.
  - rewrite ChunkerFacts.append_empty_r. simpl.
    destruct cur; reflexivity.
  - cbn [string_forall] in Hall. apply andb_prop in Hall as [Hc Hr].
    rewrite single_spaced_cons in Hss. apply andb_prop in Hss as [Hcr Hss].
    assert (Hend' : ends_with_space r = false).
    { destruct r as [|d r']; [reflexivity|exact Hend]. }
    rewrite split_from_cons, (space_clean c Hc).
    destruct (is_blank c) eqn:Hb.
    + destruct (is_empty cur) eqn:He; [specialize (Hstart eq_refl); simpl in Hstart; congruence|].
      simpl in Hcr. apply negb_true_iff in Hcr.
      pose proof (IH EmptyString Hr Hss Hend' (fun _ => Hcr)) as Hjoin.
      change (String.append EmptyString r) with r in Hjoin.
      destruct (split_from EmptyString r) as [|y l] eqn:Hsp.
      * simpl in Hjoin. subst r. simpl in Hend. congruence.
      * rewrite join_cons, Hjoin, (is_blank_eq c Hb). reflexivity.
    + rewrite (IH (snoc cur c) Hr Hss Hend'), ChunkerFacts.append_snoc; [reflexivity|].
      rewrite snoc_not_empty. discriminate.
Qed.

(** X4: Cleaning twice gives the tokens joined by single spaces. *)
Theorem clean_text_twice_joins_tokens (text : string) :
  clean_text (clean_text text) = join " " (tokenize text).
Proof.
  rewrite clean_text_twice. unfold tokenize.
  rewrite <- (split_strip (clean_text text)). unfold split.
  rewrite join_split_from; [reflexivity| | | |].
  - apply rstrip_forall, lstrip_forall, clean_text_alphabet.
  - apply rstrip_single_spaced, lstrip_single_spaced, clean_text_single_spaced.
  - apply blank_no_whitespace_end, strip_tail.
  - intros _. apply blank_no_whitespace, strip_head.
Qed.

End TokenFacts.

(** ** More on the word windows *)

Module WindowFacts.
Import PyStr TextChunker.

Local Open Scope Z_scope.

Lemma ids_from_cons first count :
  ids_from first (S count) = first :: ids_from (first + 1) count.
Proof.
  unfold ids_from. cbn [seq List.map]. f_equal; [lia|].
  rewrite <- seq_shift, List.map_map. apply List.map_ext. intros k. lia.
Qed.

Section Loop.
Variable self : t.
Variable words : list string.

Let n := Z.of_nat (length words).

(** What the loop appends, for any configuration. *)
Lemma words_loop_appends fuel : forall chunks id start,
  n - start <= Z.of_nat fuel ->
  exists more,
    words_loop fuel self words chunks id start = Some (chunks ++ more) /\
    windows self n start more /\
    List.map chunk_id more = ids_from id (length more) /\
    (forall c, In c more -> word_fields words c).
Proof.
  induction fuel as [|fuel IH]; intros chunks id start Hfuel;
    cbn [words_loop]; fold n;
    destruct (start <? n) eqn:Hlt;
    try (apply Z.ltb_lt in Hlt); try (apply Z.ltb_ge in Hlt).
  - lia.
  - exists []. rewrite app_nil_r. repeat split. intros c [].
  - cbv zeta.
    set (stop := Z.min (start + chunk_size self) n).
    set (c := {| chunk_id := id; text := join " " (slice words start stop);
                 bounds := WordSpan start stop;
                 word_count := Z.of_nat (length (slice words start stop));
                 method := "word-based" |}).
    assert (Hc : word_fields words c).
    { exists start, stop. repeat split. }
    destruct (stop - overlap self <=? start) eqn:Hadv;
      [apply Z.leb_le in Hadv | apply Z.leb_gt in Hadv].
    + exists [c]. split; [reflexivity|]. split.
      * cbn [windows]. fold stop. repeat split; [exact Hlt|congruence].
      * split; [cbn; f_equal; lia|]. intros d [<-|[]]. exact Hc.
    + destruct (IH (chunks ++ [c]) (id + 1) (stop - overlap self))
        as (more & Hrun & Hwin & Hids & Hfields); [lia|].
      exists (c :: more). split; [rewrite Hrun, <- app_assoc; reflexivity|].
      split.
      * cbn [windows]. fold stop. repeat split; [exact Hlt|lia|exact Hwin].
      * split.
        -- cbn [List.map length]. rewrite ids_from_cons, Hids. reflexivity.
        -- intros d [<-|Hd]; [exact Hc|apply Hfields, Hd].
  - exists []. rewrite app_nil_r. repeat split. intros c [].
Qed.

(** A chain that begins at [start] has at most [n - start] windows. *)
Lemma windows_length l : forall start,
  windows self n start l -> Z.of_nat (length l) <= Z.max 0 (n - start).
Proof.
  induction l as [|c rest IH]; intros start; [simpl; lia|].
  cbn [windows]. intros (_ & Hlt & Hadv & Hrest).
  specialize (IH _ Hrest). cbn [length].
  destruct rest as [|d rest']; [simpl in *; lia|].
  assert (start < Z.min (start + chunk_size self) n - overlap self)
    by (apply Hadv; discriminate).
  lia.
Qed.

(** The window at position [k] of a chain. *)
Lemma windows_lookup l : forall start k c,
  windows self n start l -> nth_error l k = Some c ->
  exists s, start <= s /\ s < n /\
    bounds c = WordSpan s (Z.min (s + chunk_size self) n) /\
    (k = 0%nat -> s = start).
Proof.
  induction l as [|d rest IH]; intros start k c; [destruct k; discriminate|].
  cbn [windows]. intros (Hb & Hlt & Hadv & Hrest).
  destruct k as [|k]; cbn [nth_error].
  - intros [= <-]. exists start. repeat split; [lia|exact Hlt|exact Hb].
  - intros Hk. destruct (IH _ k c Hrest Hk) as (s & Hs & Hsn & Hbc & _).
    exists s. split; [|split; [exact Hsn|split; [exact Hbc|discriminate]]].
    assert (rest <> []) by (destruct rest; [destruct k; discriminate|discriminate]).
    specialize (Hadv H). lia.
Qed.

(** Two neighbours of a chain. *)
Lemma windows_neighbours l : forall start k c1 c2,
  windows self n start l ->
  nth_error l k = Some c1 -> nth_error l (S k) = Some c2 ->
  exists s1 e1 s2 e2,
    bounds c1 = WordSpan s1 e1 /\ bounds c2 = WordSpan s2 e2 /\
    s2 = e1 - overlap self /\ s1 < s2.
Proof.
  induction l as [|d rest IH]; intros start k c1 c2; [destruct k; discriminate|].
  cbn [windows]. intros (Hb & Hlt & Hadv & Hrest).
  destruct k as [|k]; cbn [nth_error].
  - intros [= <-] H2. destruct rest as [|d2 rest']; [discriminate|].
    cbn [nth_error] in H2. injection H2 as <-.
    cbn [windows] in Hrest. destruct Hrest as (Hb2 & _).
    exists start, (Z.min (start + chunk_size self) n),
           (Z.min (start + chunk_size self) n - overlap self),
           (Z.min (Z.min (start + chunk_size self) n - overlap self + chunk_size self) n).
    repeat split; [exact Hb|exact Hb2|apply Hadv; discriminate].
  - intros H1 H2. exact (IH _ k c1 c2 Hrest H1 H2).
Qed.

End Loop.

Lemma chunk_by_words_chain self text :
  exists chunks,
    chunk_by_words self text = Some chunks /\
    windows self (Z.of_nat (length (split text))) 0 chunks /\
    List.map chunk_id chunks = ids_from 0 (length chunks) /\
    (forall c, In c chunks -> word_fields (split text) c).
Proof.
  unfold chunk_by_words.
  destruct (words_loop_appends self (split text) (length (split text)) [] 0 0)
    as (more & Hrun & H); [lia|].
  exists more. split; [exact Hrun|exact H].
Qed.

(** X5: For every configuration, valid or not, the word chunker returns, and
    with no more chunks than the text has words. *)
Theorem chunk_by_words_terminates (self : t) (text : string) :
  exists chunks,
    chunk_by_words self text = Some chunks /\
    (length chunks <= length (split text))%nat.
Proof.
  destruct (chunk_by_words_chain self text) as (chunks & Hrun & Hwin & _).
  exists chunks. split; [exact Hrun|].
  pose proof (windows_length self (split text) chunks 0 Hwin). lia.
Qed.

Lemma ids_from_nth first count k x :
  nth_error (ids_from first count) k = Some x -> x = first + Z.of_nat k.
Proof.
  revert first k. induction count as [|count IH]; intros first k.
  - destruct k; discriminate.
  - rewrite ids_from_cons. destruct k as [|k]; cbn [nth_error].
    + intros [= <-]. lia.
    + intros H. rewrite (IH _ _ H). lia.
Qed.

Lemma ids_nth (l : list Chunk) first k c :
  List.map chunk_id l = ids_from first (length l) ->
  nth_error l k = Some c -> chunk_id c = first + Z.of_nat k.
Proof.
  intros Hids Hk. apply (ids_from_nth first (length l)).
  rewrite <- Hids. apply map_nth_error, Hk.
Qed.

(** X6: The chunk at position [k] has identifier [k], in every configuration. *)
Theorem chunk_by_words_ids (self : t) (text : string) (chunks : list Chunk)
    (k : nat) (c : Chunk) :
  chunk_by_words self text = Some chunks ->
  nth_error chunks k = Some c -> chunk_id c = Z.of_nat k.
Proof.
  intros Hrun Hk.
  destruct (chunk_by_words_chain self text) as (chunks' & Hrun' & _ & Hids & _).
  rewrite Hrun in Hrun'. injection Hrun' as <-.
  rewrite (ids_nth chunks 0 k c Hids Hk). lia.
Qed.

Lemma chunk_by_words_ids_witness :
  exists chunks c,
    chunk_by_words {| chunk_size := 2; overlap := 0 |} "a b c d e" = Some chunks /\
    nth_error chunks 2 = Some c /\ chunk_id c = 2.
Proof.
  eexists. eexists. split; [reflexivity|]. split; [reflexivity|].
  apply (chunk_by_words_ids {| chunk_size := 2; overlap := 0 |} "a b c d e"
           _ 2%nat _ eq_refl eq_refl).
Defined.

(** X7: The first window begins at token 0, and each next window begins
    [overlap] tokens before the end of the one before it and to the right of
    where that one began.  This holds in every configuration. *)
Theorem chunk_by_words_stride (self : t) (text : string) (chunks : list Chunk) :
  chunk_by_words self text = Some chunks ->
  (forall c, nth_error chunks 0 = Some c ->
     exists e, bounds c = WordSpan 0 e) /\
  (forall k c1 c2,
     nth_error chunks k = Some c1 -> nth_error chunks (S k) = Some c2 ->
     exists s1 e1 s2 e2,
       bounds c1 = WordSpan s1 e1 /\ bounds c2 = WordSpan s2 e2 /\
       s2 = e1 - overlap self /\ s1 < s2).
Proof.
  intros Hrun.
  destruct (chunk_by_words_chain self text) as (chunks' & Hrun' & Hwin & _).
  rewrite Hrun in Hrun'. injection Hrun' as <-. split.
  - intros c Hc.
    destruct (windows_lookup self (split text) chunks 0 0%nat c Hwin Hc)
      as (s & _ & _ & Hb & Hs).
    rewrite (Hs eq_refl) in Hb. eexists. exact Hb.
  - intros k c1 c2. apply (windows_neighbours self (split text) chunks 0), Hwin.
Qed.

Lemma chunk_by_words_stride_witness :
  exists chunks c1 c2 s1 e1 s2 e2,
    chunk_by_words {| chunk_size := 3; overlap := 1 |} "a b c d e f" = Some chunks /\
    nth_error chunks 0 = Some c1 /\ nth_error chunks 1 = Some c2 /\
    bounds c1 = WordSpan s1 e1 /\ bounds c2 = WordSpan s2 e2 /\
    s2 = e1 - 1 /\ s1 < s2.
Proof.
  destruct (proj2 (chunk_by_words_stride {| chunk_size := 3; overlap := 1 |}
                     "a b c d e f" _ eq_refl) 0%nat _ _ eq_refl eq_refl)
    as (s1 & e1 & s2 & e2 & H).
  do 3 eexists. exists s1, e1, s2, e2.
  split; [reflexivity|]. split; [reflexivity|]. split; [reflexivity|]. exact H.
Defined.

(** X8: With [chunk_size > 0] every window holds between 1 and [chunk_size]
    tokens, and a window shorter than [chunk_size] ends at the last token. *)
Theorem chunk_by_words_window_size (self : t) (text : string)
    (chunks : list Chunk) (c : Chunk) :
  0 < chunk_size self ->
  chunk_by_words self text = Some chunks -> In c chunks ->
  0 < word_count c <= chunk_size self /\
  exists s e, bounds c = WordSpan s e /\ word_count c = e - s /\
    (word_count c = chunk_size self \/ e = Z.of_nat (length (split text))).
Proof.
  intros Hcs Hrun Hin.
  destruct (chunk_by_words_chain self text) as (chunks' & Hrun' & Hwin & _ & Hf).
  rewrite Hrun in Hrun'. injection Hrun' as <-.
  destruct (In_nth_error chunks c Hin) as (k & Hk).
  destruct (windows_lookup self (split text) chunks 0 k c Hwin Hk)
    as (s & Hs0 & Hsn & Hb & _).
  destruct (Hf c Hin) as (s' & e' & Hb' & _ & Hwc & _).
  rewrite Hb in Hb'. injection Hb' as <- <-.
  rewrite ChunkerFacts.slice_length in Hwc by lia.
  split; [lia|]. eexists. eexists. split; [exact Hb|]. split; [exact Hwc|]. lia.
Qed.

Lemma chunk_by_words_window_size_witness :
  exists chunks c,
    0 < 3 /\
    chunk_by_words {| chunk_size := 3; overlap := 1 |} "a b c d" = Some chunks /\
    In c chunks /\ 0 < word_count c <= 3.
Proof.
  eexists. eexists. split; [lia|]. split; [reflexivity|].
  split; [right; left; reflexivity|].
  apply (chunk_by_words_window_size {| chunk_size := 3; overlap := 1 |} "a b c d"
           _ _ ltac:(simpl; lia) eq_refl).
  right. left. reflexivity.
Defined.

(** *** A text that fits in one window *)

Lemma words_loop_pass self words fuel chunks id start :
  start < Z.of_nat (length words) ->
  words_loop (S fuel) self words chunks id start =
  let stop := Z.min (start + chunk_size self) (Z.of_nat (length words)) in
  let chunks' := chunks ++ [ {| chunk_id := id;
                                text := join " " (slice words start stop);
                                bounds := WordSpan start stop;
                                word_count := Z.of_nat (length (slice words start stop));
                                method := "word-based" |} ] in
  if stop - overlap self <=? start then Some chunks'
  else words_loop fuel self words chunks' (id + 1) (stop - overlap self).
Proof.
  intros H. cbn [words_loop]. apply Z.ltb_lt in H. rewrite H. reflexivity.
Qed.

Lemma slice_all {A} (l : list A) : slice l 0 (Z.of_nat (length l)) = l.
Proof.
  unfold slice, clamp_index.
  replace (0 <? 0) with false by reflexivity.
  destruct (Z.of_nat (length l) <? 0) eqn:H; [apply Z.ltb_lt in H; lia|].
  replace (Z.to_nat (Z.min 0 (Z.of_nat (length l)))) with 0%nat by lia.
  cbn [drop]. apply take_ge. lia.
Qed.

(** X9: A text of [n <= chunk_size] words with [0 < overlap < n] gives two
    chunks: the whole text, and then its last [overlap] words once more. *)
Theorem short_text_repeats_tail (self : t) (text : string) :
  let words := split text in
  let n := Z.of_nat (length words) in
  0 < overlap self < n -> n <= chunk_size self ->
  chunk_by_words self text =
    Some [ {| chunk_id := 0; text := join " " words;
              bounds := WordSpan 0 n; word_count := n;
              method := "word-based" |};
           {| chunk_id := 1;
              text := join " " (slice words (n - overlap self) n);
              bounds := WordSpan (n - overlap self) n;
              word_count := overlap self;
              method := "word-based" |} ].
Proof.
  intros words n Hov Hn. unfold chunk_by_words. fold words.
  assert (Hfuel : exists fuel, length words = S (S fuel)).
  { destruct (length words) as [|[|fuel]] eqn:E; [subst n; lia|subst n; lia|].
    exists fuel. reflexivity. }
  destruct Hfuel as (fuel & Hfuel). rewrite Hfuel at 1.
  rewrite words_loop_pass by (fold n; lia). fold n. cbv zeta.
  replace (Z.min (0 + chunk_size self) n) with n by lia.
  destruct (n - overlap self <=? 0) eqn:H1; [apply Z.leb_le in H1; lia|].
  rewrite words_loop_pass by (fold n; lia). fold n. cbv zeta.
  replace (Z.min (n - overlap self + chunk_size self) n) with n by lia.
  destruct (n - overlap self <=? n - overlap self) eqn:H2;
    [|apply Z.leb_gt in H2; lia].
  cbn [app].
  assert (Hall : slice words 0 n = words) by apply slice_all.
  rewrite !Hall.
  rewrite (ChunkerFacts.slice_length words (n - overlap self) n) by (fold n; lia).
  repeat f_equal. lia.
Qed.

Lemma short_text_repeats_tail_witness :
  (0 < 2 < 4 /\ 4 <= 50) /\
  chunk_by_words {| chunk_size := 50; overlap := 2 |} "a b c d" =
    Some [ {| chunk_id := 0; text := "a b c d"; bounds := WordSpan 0 4;
              word_count := 4; method := "word-based" |};
           {| chunk_id := 1; text := "c d"; bounds := WordSpan 2 4;
              word_count := 2; method := "word-based" |} ].
Proof.
  split; [lia|].
  apply (short_text_repeats_tail {| chunk_size := 50; overlap := 2 |} "a b c d");
    simpl; lia.
Defined.

(** *** The word count of a window *)

Lemma In_slice {A} (l : list A) s e x : In x (slice l s e) -> In x l.
Proof.
  unfold slice. intros H.
  rewrite <- (firstn_skipn (Z.to_nat (clamp_index (Z.of_nat (length l)) s)) l).
  apply in_or_app. right.
  rewrite <- (firstn_skipn (Z.to_nat (clamp_index (Z.of_nat (length l)) e
                                       - clamp_index (Z.of_nat (length l)) s))
                (skipn _ l)).
  apply in_or_app. left. exact H.
Qed.

(** X10: In every configuration the [word_count] of a word chunk is the number
    of words of its [text]. *)
Theorem word_chunk_count_is_text_count (self : t) (text : string)
    (chunks : list Chunk) (c : Chunk) :
  chunk_by_words self text = Some chunks -> In c chunks ->
  count_words (TextChunker.text c) = word_count c.
Proof.
  intros Hrun Hin.
  destruct (chunk_by_words_chain self text) as (chunks' & Hrun' & _ & _ & Hf).
  rewrite Hrun in Hrun'. injection Hrun' as <-.
  destruct (Hf c Hin) as (s & e & _ & Htext & Hwc & _).
  rewrite Htext, Hwc. unfold count_words.
  rewrite TokenFacts.split_join_words; [reflexivity|].
  intros w Hw. apply (TokenFacts.split_words text), (In_slice _ s e), Hw.
Qed.

Lemma word_chunk_count_is_text_count_witness :
  exists chunks c,
    chunk_by_words {| chunk_size := 2; overlap := 1 |} "a b c" = Some chunks /\
    In c chunks /\ count_words (TextChunker.text c) = word_count c.
Proof.
  eexists. eexists. split; [reflexivity|]. split; [left; reflexivity|].
  apply (word_chunk_count_is_text_count {| chunk_size := 2; overlap := 1 |} "a b c"
           _ _ eq_refl).
  left. reflexivity.
Defined.

End WindowFacts.

(** ** More on the sentence groups *)

Module SentenceFacts.
Import PyStr TextChunker ChunkerFacts.

Local Open Scope Z_scope.

(** *** What [split_into_sentences] returns *)

Lemma strip_not_empty s :
  is_empty (strip s) = false ->
  is_empty (strip s) = false /\
  starts_with_whitespace (strip s) = false /\
  ends_with_whitespace (strip s) = false.
Proof.
  intros H. split; [exact H|].
  split; [apply TokenFacts.strip_head|apply TokenFacts.strip_tail].
Qed.

(** X11: Every sentence is non-empty and neither begins nor ends with
    whitespace. *)
Theorem split_into_sentences_stripped (text s : string) :
  In s (split_into_sentences text) ->
  is_empty s = false /\
  starts_with_whitespace s = false /\ ends_with_whitespace s = false.
Proof.
  unfold split_into_sentences. intros H.
  apply in_map_iff in H as (p & <- & Hp).
  apply filter_In in Hp as [_ Hp]. apply negb_true_iff in Hp.
  apply strip_not_empty, Hp.
Qed.

Lemma split_into_sentences_stripped_witness :
  In "How are you?" (split_into_sentences " Hi there.  How are you?  ") /\
  is_empty "How are you?" = false /\
  starts_with_whitespace "How are you?" = false /\
  ends_with_whitespace "How are you?" = false.
Proof.
  split; [vm_compute; tauto|].
  apply (split_into_sentences_stripped " Hi there.  How are you?  " "How are you?").
  vm_compute. tauto.
Defined.

(** *** Invariants of the loop, one at a time *)

Section Loop.
Variable self : t.

(** The two ways a pass can go. *)
Lemma sentence_step_close st s :
  (st_current_word_count st + count_words s >? chunk_size self)
    && negb (is_nil (st_current_chunk st)) = true ->
  sentence_step self st s =
  {| st_chunks := st_chunks st ++
       [sentence_chunk (st_chunk_id st) (st_current_chunk st)
                       (st_current_word_count st)];
     st_current_chunk := last_two (st_current_chunk st) ++ [s];
     st_current_word_count :=
       sum_Z (map count_words (last_two (st_current_chunk st))) + count_words s;
     st_chunk_id := st_chunk_id st + 1 |}.
Proof. intros H. unfold sentence_step. rewrite H. reflexivity. Qed.

Lemma sentence_step_keep st s :
  (st_current_word_count st + count_words s >? chunk_size self)
    && negb (is_nil (st_current_chunk st)) = false ->
  sentence_step self st s =
  {| st_chunks := st_chunks st;
     st_current_chunk := st_current_chunk st ++ [s];
     st_current_word_count := st_current_word_count st + count_words s;
     st_chunk_id := st_chunk_id st |}.
Proof. intros H. unfold sentence_step. rewrite H. reflexivity. Qed.

(** A property kept by every pass holds when the loop is left. *)
Lemma loop_rule (P : list string -> SentState -> Prop) :
  P [] start_state ->
  (forall seen st s, loop_inv seen st -> P seen st ->
                     P (seen ++ [s]) (sentence_step self st s)) ->
  forall sentences, P sentences (sentences_loop self sentences).
Proof.
  intros Hstart Hstep sentences. unfold sentences_loop.
  assert (H : forall rest seen st, loop_inv seen st -> P seen st ->
            P (seen ++ rest) (fold_left (sentence_step self) rest st)).
  { induction rest as [|s rest IH]; intros seen st Hinv HP; simpl.
    - rewrite app_nil_r. exact HP.
    - replace (seen ++ s :: rest) with ((seen ++ [s]) ++ rest)
        by (rewrite <- app_assoc; reflexivity).
      apply IH; [apply loop_inv_step, Hinv|apply Hstep; assumption]. }
  apply (H sentences [] start_state loop_inv_start Hstart).
Qed.

Lemma ids_from_snoc first count :
  ids_from first (S count) = ids_from first count ++ [first + Z.of_nat count].
Proof.
  unfold ids_from. rewrite seq_S, List.map_app. reflexivity.
Qed.

Lemma ids_kept sentences : ids_inv sentences (sentences_loop self sentences).
Proof.
  apply (loop_rule ids_inv); [split; reflexivity|].
  intros seen st s _ [Hids Hid].
  destruct ((st_current_word_count st + count_words s >? chunk_size self)
            && negb (is_nil (st_current_chunk st))) eqn:Hcond.
  - rewrite sentence_step_close by exact Hcond. unfold ids_inv.
    cbn [st_chunks st_chunk_id]. rewrite length_app. cbn [length].
    rewrite Nat.add_1_r, ids_from_snoc, List.map_app, Hids. cbn [List.map chunk_id sentence_chunk].
    split; [rewrite Hid; reflexivity|lia].
  - rewrite sentence_step_keep by exact Hcond. split; assumption.
Qed.

Lemma cover_kept sentences : cover_inv sentences (sentences_loop self sentences).
Proof.
  apply (loop_rule cover_inv); [intros s []|].
  intros seen st s _ Hcov x Hx.
  destruct ((st_current_word_count st + count_words s >? chunk_size self)
            && negb (is_nil (st_current_chunk st))) eqn:Hcond.
  - rewrite sentence_step_close by exact Hcond. cbn [st_chunks st_current_chunk].
    apply andb_prop in Hcond as [_ Hnil].
    apply negb_true_iff, is_nil_false in Hnil.
    apply in_app_or in Hx as [Hx|[<-|[]]].
    + right. destruct (Hcov x Hx) as [Hcur|(c & run & Hc & Hg & Hr)].
      * exists (sentence_chunk (st_chunk_id st) (st_current_chunk st)
                               (st_current_word_count st)), (st_current_chunk st).
        split; [apply in_or_app; right; left; reflexivity|].
        split; [apply groups_sentence_chunk, Hnil|exact Hcur].
      * exists c, run. split; [apply in_or_app; left; exact Hc|]. split; assumption.
    + left. apply in_or_app. right. left. reflexivity.
  - rewrite sentence_step_keep by exact Hcond. cbn [st_chunks st_current_chunk].
    apply in_app_or in Hx as [Hx|[<-|[]]].
    + destruct (Hcov x Hx) as [Hcur|H]; [left; apply in_or_app; left; exact Hcur|right; exact H].
    + left. apply in_or_app. right. left. reflexivity.
Qed.

Lemma ceiling_kept sentences :
  ceiling_inv self sentences (sentences_loop self sentences).
Proof.
  apply (loop_rule (ceiling_inv self)).
  - split; [simpl; lia|intros c []].
  - intros seen st s Hinv [Hcur Hchunks].
    destruct Hinv as (_ & _ & Hcount & _).
    destruct ((st_current_word_count st + count_words s >? chunk_size self)
              && negb (is_nil (st_current_chunk st))) eqn:Hcond.
    + rewrite sentence_step_close by exact Hcond. unfold ceiling_inv.
      cbn [st_chunks st_current_chunk st_current_word_count]. split.
      * intros _. rewrite length_app. cbn [length].
        pose proof (last_two_length (st_current_chunk st)). lia.
      * intros c [Hc|[<-|[]]]%in_app_or; [apply Hchunks, Hc|].
        cbn [sentence_chunk word_count bounds]. intros Hbig.
        eexists. split; [reflexivity|]. specialize (Hcur Hbig). lia.
    + rewrite sentence_step_keep by exact Hcond. unfold ceiling_inv.
      cbn [st_chunks st_current_chunk st_current_word_count].
      split; [|exact Hchunks].
      apply andb_false_iff in Hcond as [Hcond|Hcond].
      * rewrite Z.gtb_ltb in Hcond. apply Z.ltb_ge in Hcond. lia.
      * apply negb_false_iff in Hcond.
        destruct (st_current_chunk st); [simpl; lia|discriminate Hcond].
Qed.

Lemma count_join l : count_words (join " " l) = sum_Z (map count_words l).
Proof.
  induction l as [|x [|y l] IH].
  - reflexivity.
  - rewrite TokenFacts.join_single. simpl. lia.
  - unfold count_words at 1. rewrite TokenFacts.split_join_cons, length_app.
    fold (count_words (join " " (y :: l))) in *.
    change (sum_Z (map count_words (x :: y :: l)))
      with (count_words x + sum_Z (map count_words (y :: l))).
    rewrite <- IH. unfold count_words. lia.
Qed.

Lemma count_kept sentences : count_inv sentences (sentences_loop self sentences).
Proof.
  apply (loop_rule count_inv); [intros c []|].
  intros seen st s Hinv Hc.
  destruct Hinv as (_ & _ & Hcount & _).
  destruct ((st_current_word_count st + count_words s >? chunk_size self)
            && negb (is_nil (st_current_chunk st))) eqn:Hcond.
  - rewrite sentence_step_close by exact Hcond. unfold count_inv.
    cbn [st_chunks]. intros c [Hin|[<-|[]]]%in_app_or; [apply Hc, Hin|].
    cbn [sentence_chunk word_count text]. rewrite count_join. exact Hcount.
  - rewrite sentence_step_keep by exact Hcond. exact Hc.
Qed.

Lemma fits_kept sentences : fits_inv self sentences (sentences_loop self sentences).
Proof.
  apply (loop_rule (fits_inv self)); [intros _; reflexivity|].
  intros seen st s _ Hfit Hsum.
  rewrite List.map_app in Hsum. cbn [List.map] in Hsum. rewrite sum_Z_snoc in Hsum.
  pose proof (count_words_nonneg s) as Hs.
  rewrite Hfit by lia.
  rewrite sentence_step_keep.
  - cbn [st_chunks st_current_chunk st_current_word_count st_chunk_id].
    rewrite List.map_app. cbn [List.map]. rewrite sum_Z_snoc. reflexivity.
  - cbn [st_current_word_count st_current_chunk]. apply andb_false_iff. left.
    rewrite Z.gtb_ltb. apply Z.ltb_ge. lia.
Qed.





Lemma loop_inv_end sentences : loop_inv sentences (sentences_loop self sentences).
Proof. apply (loop_inv_fold self sentences [] start_state loop_inv_start). Qed.

Lemma in_close_last st c :
  In c (close_last st) ->
  In c (st_chunks st) \/
  (st_current_chunk st <> [] /\
   c = sentence_chunk (st_chunk_id st) (st_current_chunk st)
                      (st_current_word_count st)).
Proof.
  unfold close_last. destruct (is_nil (st_current_chunk st)) eqn:Hnil; cbn [negb].
  - auto.
  - intros [H|[<-|[]]]%in_app_or; [auto|].
    right. split; [apply is_nil_false, Hnil|reflexivity].
Qed.

Lemma chunk_sentences_ids sentences :
  List.map chunk_id (chunk_sentences self sentences)
  = ids_from 0 (length (chunk_sentences self sentences)).
Proof.
  unfold chunk_sentences, close_last.
  destruct (ids_kept sentences) as [Hids Hid].
  destruct (negb _); [|exact Hids].
  rewrite length_app. cbn [length]. rewrite Nat.add_1_r, ids_from_snoc.
  rewrite List.map_app, Hids. cbn [List.map chunk_id sentence_chunk].
  rewrite Hid. reflexivity.
Qed.

Lemma chunk_sentences_cover sentences s :
  In s sentences ->
  exists c run, In c (chunk_sentences self sentences) /\ groups c run /\ In s run.
Proof.
  intros Hs. unfold chunk_sentences.
  destruct (cover_kept sentences s Hs) as [Hcur|(c & run & Hc & Hg & Hr)].
  - set (st := sentences_loop self sentences) in *.
    assert (Hne : st_current_chunk st <> []) by (intros E; rewrite E in Hcur; exact Hcur).
    exists (sentence_chunk (st_chunk_id st) (st_current_chunk st)
                           (st_current_word_count st)), (st_current_chunk st).
    split; [|split; [apply groups_sentence_chunk, Hne|exact Hcur]].
    unfold close_last.
    replace (is_nil (st_current_chunk st)) with false
      by (symmetry; apply is_nil_false, Hne).
    apply in_or_app. right. left. reflexivity.
  - exists c, run. split; [apply close_last_keeps_chunks, Hc|]. split; assumption.
Qed.

Lemma chunk_sentences_ceiling sentences c :
  In c (chunk_sentences self sentences) -> chunk_size self < word_count c ->
  exists k, bounds c = SentenceCount k /\ k <= 3.
Proof.
  unfold chunk_sentences. intros Hc Hbig.
  destruct (ceiling_kept sentences) as [Hcur Hchunks].
  apply in_close_last in Hc as [Hc|[_ ->]]; [apply Hchunks; assumption|].
  cbn [sentence_chunk word_count bounds] in *.
  eexists. split; [reflexivity|]. specialize (Hcur Hbig). lia.
Qed.

Lemma chunk_sentences_count sentences c :
  In c (chunk_sentences self sentences) ->
  word_count c = count_words (TextChunker.text c).
Proof.
  unfold chunk_sentences. intros Hc.
  apply in_close_last in Hc as [Hc|[_ ->]]; [apply (count_kept sentences), Hc|].
  destruct (loop_inv_end sentences) as (_ & _ & Hcount & _).
  cbn [sentence_chunk word_count text]. rewrite count_join. exact Hcount.
Qed.

Lemma chunk_sentences_fits sentences :
  sentences <> [] -> sum_Z (map count_words sentences) <= chunk_size self ->
  chunk_sentences self sentences =
  [sentence_chunk 0 sentences (sum_Z (map count_words sentences))].
Proof.
  intros Hne Hsum. unfold chunk_sentences.
  rewrite (fits_kept sentences Hsum). unfold close_last.
  cbn [st_current_chunk st_chunks st_chunk_id st_current_word_count].
  replace (is_nil sentences) with false by (symmetry; apply is_nil_false, Hne).
  reflexivity.
Qed.

End Loop.

(** X12: The sentence chunk at position [k] has identifier [k]. *)
Theorem chunk_by_sentences_ids (self : t) (text : string) (k : nat) (c : Chunk) :
  nth_error (chunk_by_sentences self text) k = Some c -> chunk_id c = Z.of_nat k.
Proof.
  intros Hk. unfold chunk_by_sentences in Hk.
  rewrite (WindowFacts.ids_nth _ 0 k c (chunk_sentences_ids self _) Hk). lia.
Qed.

Lemma chunk_by_sentences_ids_witness :
  exists c,
    nth_error (chunk_by_sentences {| chunk_size := 3; overlap := 0 |}
                                  "a b. c d e f g.") 1 = Some c /\
    chunk_id c = 1.
Proof.
  eexists. split; [reflexivity|].
  apply (chunk_by_sentences_ids {| chunk_size := 3; overlap := 0 |}
           "a b. c d e f g." 1%nat _ eq_refl).
Defined.

(** X13: No sentence is dropped: each sentence of the text is one of the
    sentences of some chunk. *)
Theorem chunk_by_sentences_keeps_every_sentence (self : t) (text s : string) :
  In s (split_into_sentences text) ->
  exists c run,
    In c (chunk_by_sentences self text) /\ groups c run /\ In s run.
Proof. apply chunk_sentences_cover. Qed.

Lemma chunk_by_sentences_keeps_every_sentence_witness :
  In "a b." (split_into_sentences "a b. c d e f g.") /\
  exists c run,
    In c (chunk_by_sentences {| chunk_size := 3; overlap := 0 |} "a b. c d e f g.") /\
    groups c run /\ In "a b." run.
Proof.
  split; [vm_compute; tauto|].
  apply (chunk_by_sentences_keeps_every_sentence
           {| chunk_size := 3; overlap := 0 |} "a b. c d e f g." "a b.").
  vm_compute. tauto.
Defined.

(** X14: The size ceiling is soft, but only so far: a chunk whose word count
    exceeds [chunk_size] holds at most three sentences. *)
Theorem oversize_chunk_has_few_sentences (self : t) (text : string) (c : Chunk) :
  In c (chunk_by_sentences self text) -> chunk_size self < word_count c ->
  exists k, bounds c = SentenceCount k /\ k <= 3.
Proof. apply chunk_sentences_ceiling. Qed.

Lemma oversize_chunk_has_few_sentences_witness :
  exists c k,
    In c (chunk_by_sentences {| chunk_size := 3; overlap := 0 |} "a b. c d e f g.") /\
    3 < word_count c /\ bounds c = SentenceCount k /\ k <= 3.
Proof.
  destruct (oversize_chunk_has_few_sentences
              {| chunk_size := 3; overlap := 0 |} "a b. c d e f g."
              (sentence_chunk 1 ["a b."; "c d e f g."] 7)) as (k & Hb & Hk).
  - vm_compute. tauto.
  - simpl. lia.
  - exists (sentence_chunk 1 ["a b."; "c d e f g."] 7), k.
    split; [vm_compute; tauto|].
    split; [vm_compute; reflexivity|]. split; [exact Hb|exact Hk].
Defined.

(** X15: The [word_count] of a sentence chunk is the number of words of its
    [text]. *)
Theorem sentence_chunk_count_is_text_count (self : t) (text : string) (c : Chunk) :
  In c (chunk_by_sentences self text) ->
  word_count c = count_words (TextChunker.text c).
Proof. apply chunk_sentences_count. Qed.

Lemma sentence_chunk_count_is_text_count_witness :
  exists c,
    In c (chunk_by_sentences {| chunk_size := 3; overlap := 0 |} "a b. c d e f g.") /\
    word_count c = count_words (TextChunker.text c).
Proof.
  eexists. split; [left; reflexivity|].
  apply (sentence_chunk_count_is_text_count
           {| chunk_size := 3; overlap := 0 |} "a b. c d e f g.").
  left. reflexivity.
Defined.



(** X16: A text whose sentences together have no more than [chunk_size] words
    becomes one chunk that holds all of them. *)
Theorem fitting_text_is_one_chunk (self : t) (text : string) :
  let sentences := split_into_sentences text in
  sentences <> [] ->
  sum_Z (map count_words sentences) <= chunk_size self ->
  chunk_by_sentences self text =
  [ {| chunk_id := 0;
       text := join " " sentences;
       bounds := SentenceCount (Z.of_nat (length sentences));
       word_count := sum_Z (map count_words sentences);
       method := "sentence-based" |} ].
Proof.
  intros sentences Hne Hsum. unfold chunk_by_sentences.
  apply (chunk_sentences_fits self _ Hne Hsum).
Qed.

Lemma fitting_text_is_one_chunk_witness :
  chunk_by_sentences {| chunk_size := 50; overlap := 10 |} "Hi there. How are you?" =
  [ {| chunk_id := 0;
       text := "Hi there. How are you?";
       bounds := SentenceCount 2;
       word_count := 5;
       method := "sentence-based" |} ].
Proof.
  apply (fitting_text_is_one_chunk {| chunk_size := 50; overlap := 10 |}
           "Hi there. How are you?").
  - vm_compute. discriminate.
  - vm_compute. discriminate.
Defined.

End SentenceFacts.

(** ** Statistics and dispatch *)

Module StatsFacts.
Import PyStr TextChunker.

Local Open Scope Z_scope.

Lemma min_list_le l : forall x,
  min_list x l <= x /\ forall y, In y l -> min_list x l <= y.
Proof.
  unfold min_list. induction l as [|z l IH]; intros x; simpl.
  - split; [lia|intros y []].
  - destruct (IH (Z.min x z)) as [H1 H2]. split; [lia|].
    intros y [<-|Hy]; [lia|apply H2, Hy].
Qed.

Lemma max_list_ge l : forall x,
  x <= max_list x l /\ forall y, In y l -> y <= max_list x l.
Proof.
  unfold max_list. induction l as [|z l IH]; intros x; simpl.
  - split; [lia|intros y []].
  - destruct (IH (Z.max x z)) as [H1 H2]. split; [lia|].
    intros y [<-|Hy]; [lia|apply H2, Hy].
Qed.

Lemma min_list_in l : forall x, min_list x l = x \/ In (min_list x l) l.
Proof.
  unfold min_list. induction l as [|z l IH]; intros x; simpl; [auto|].
  destruct (IH (Z.min x z)) as [H|H]; [|auto].
  rewrite H. destruct (Z.min_spec x z) as [[_ ->]|[_ ->]]; auto.
Qed.

Lemma max_list_in l : forall x, max_list x l = x \/ In (max_list x l) l.
Proof.
  unfold max_list. induction l as [|z l IH]; intros x; simpl; [auto|].
  destruct (IH (Z.max x z)) as [H|H]; [|auto].
  rewrite H. destruct (Z.max_spec x z) as [[_ ->]|[_ ->]]; auto.
Qed.

Lemma sum_Z_bounds lo hi l :
  (forall y, In y l -> lo <= y <= hi) ->
  lo * Z.of_nat (length l) <= sum_Z l <= hi * Z.of_nat (length l).
Proof.
  induction l as [|z l IH]; intros H; [simpl; lia|].
  cbn [sum_Z fold_right length]. fold (sum_Z l).
  pose proof (H z (or_introl eq_refl)).
  assert (forall y, In y l -> lo <= y <= hi) by (intros y Hy; apply H; right; exact Hy).
  specialize (IH H1). nia.
Qed.

(** X17: On a non-empty list the integer statistics are consistent: the
    count is the length, the total is the sum of the word counts, the
    minimum and the maximum are word counts of the list that bound all
    others, and the total lies between the count times the minimum and the
    count times the maximum. *)
Theorem get_chunk_stats_consistent (c0 : Chunk) (rest : list Chunk) :
  exists s,
    get_chunk_stats (c0 :: rest) = Ok (StatsOf s) /\
    total_chunks s = Z.of_nat (length (c0 :: rest)) /\
    total_words s = sum_Z (map word_count (c0 :: rest)) /\
    In (min_words s) (map word_count (c0 :: rest)) /\
    In (max_words s) (map word_count (c0 :: rest)) /\
    (forall c, In c (c0 :: rest) -> min_words s <= word_count c <= max_words s) /\
    min_words s * total_chunks s <= total_words s <= max_words s * total_chunks s /\
    stats_method s = method c0.
Proof.
  eexists. split; [reflexivity|].
  cbn [total_chunks total_words min_words max_words stats_method].
  set (counts := map word_count rest).
  destruct (min_list_le counts (word_count c0)) as [Hmin0 Hmin].
  destruct (max_list_ge counts (word_count c0)) as [Hmax0 Hmax].
  assert (Hall : forall y, In y (word_count c0 :: counts) ->
            min_list (word_count c0) counts <= y <= max_list (word_count c0) counts).
  { intros y [<-|Hy]; [lia|]. split; [apply Hmin, Hy|apply Hmax, Hy]. }
  pose proof (sum_Z_bounds _ _ _ Hall) as Hsum.
  change (map word_count (c0 :: rest)) with (word_count c0 :: counts).
  split; [reflexivity|]. split; [reflexivity|].
  split; [destruct (min_list_in counts (word_count c0)) as [->|H]; [left; reflexivity|right; exact H]|].
  split; [destruct (max_list_in counts (word_count c0)) as [->|H]; [left; reflexivity|right; exact H]|].
  split.
  { intros c Hc. apply Hall. change (In (word_count c) (map word_count (c0 :: rest))).
    apply in_map, Hc. }
  split; [|reflexivity].
  replace (length (c0 :: rest)) with (length (word_count c0 :: counts))
    by (unfold counts; cbn [length]; rewrite length_map; reflexivity).
  exact Hsum.
Qed.

(** X18: [chunk_text] never loops.  It raises [ValueError] exactly when the
    method is neither [words] nor [sentences] (the names are matched as
    they are, case included), and otherwise returns what the named chunker
    returns. *)
Theorem chunk_text_dispatch (self : t) (text method : string) :
  exists r,
    chunk_text self text method = Some r /\
    (raises r <-> method <> "words" /\ method <> "sentences") /\
    (method = "words" ->
       exists chunks, chunk_by_words self text = Some chunks /\ r = Ok chunks) /\
    (method = "sentences" -> r = Ok (chunk_by_sentences self text)).
Proof.
  unfold chunk_text.
  destruct (String.eqb_spec method "words") as [->|Hw].
  - destruct (ChunkerFacts.chunk_by_words_total self text) as (chunks & Hrun).
    rewrite Hrun. eexists. split; [reflexivity|]. split; [|split].
    + split; [intros [e He]; discriminate He|intros [H _]; congruence].
    + intros _. exists chunks. split; reflexivity.
    + discriminate.
  - destruct (String.eqb_spec method "sentences") as [->|Hs].
    + eexists. split; [reflexivity|]. split; [|split].
      * split; [intros [e He]; discriminate He|intros [_ H]; congruence].
      * discriminate.
      * reflexivity.
    + eexists. split; [reflexivity|]. split; [|split].
      * split; [intros _; split; assumption|intros _; eexists; reflexivity].
      * intros H. contradiction.
      * intros H. contradiction.
Qed.

End StatsFacts.

(** ** More on the FAQ finder *)

Module MatchFacts.
Import PyStr TextCleaner FAQFinder.

Local Open Scope Q_scope.

(** *** The score *)

Lemma size_inter_le_union (a b : gset string) : (size (a ∩ b) <= size (a ∪ b))%nat.
Proof.
  apply subseteq_size. etransitivity;
    [apply intersection_subseteq_l|apply union_subseteq_l].
Qed.

Lemma Qmake_nat_le_1 (k m : nat) :
  (k <= m)%nat -> (0 < m)%nat -> Qmake (Z.of_nat k) (Pos.of_nat m) <= 1.
Proof.
  intros Hk Hm. unfold Qle. cbn [Qnum Qden].
  rewrite Z.mul_1_r, Z.mul_1_l.
  rewrite <- positive_nat_Z, Nat2Pos.id by lia. lia.
Qed.

Lemma size_zero (a : gset string) : size a = 0%nat <-> a = ∅.
Proof.
  split; [intros H; apply leibniz_equiv, size_empty_iff, H|].
  intros ->. apply size_empty.
Qed.

Lemma score_range (a b : gset string) : 0 <= score a b <= 1.
Proof.
  unfold score. destruct (0 <? size (a ∪ b))%nat eqn:H.
  - apply Nat.ltb_lt in H. split.
    + unfold Qle. cbn [Qnum Qden]. lia.
    + apply Qmake_nat_le_1; [apply size_inter_le_union|exact H].
  - split; [apply Qle_refl|unfold Qle; simpl; lia].
Qed.

Lemma score_zero_iff (a b : gset string) : score a b == 0 <-> a ∩ b = ∅.
Proof.
  unfold score. destruct (0 <? size (a ∪ b))%nat eqn:H.
  - unfold Qeq. cbn [Qnum Qden]. rewrite Z.mul_1_r, Z.mul_0_l.
    rewrite <- size_zero. lia.
  - apply Nat.ltb_ge in H. split; [intros _|reflexivity].
    assert (Hu : size (a ∩ b) = 0%nat)
      by (pose proof (size_inter_le_union a b); lia).
    apply size_zero, Hu.
Qed.

Lemma score_self (a : gset string) : a <> ∅ -> score a a == 1.
Proof.
  intros Hne. unfold score.
  assert (a ∩ a = a) as ->
    by (apply leibniz_equiv, set_equiv; intros x; rewrite elem_of_intersection; tauto).
  assert (a ∪ a = a) as ->
    by (apply leibniz_equiv, set_equiv; intros x; rewrite elem_of_union; tauto).
  assert (Hpos : (0 < size a)%nat).
  { destruct (size a) eqn:E; [|lia]. apply size_zero in E. contradiction. }
  replace (0 <? size a)%nat with true by (symmetry; apply Nat.ltb_lt, Hpos).
  unfold Qeq. cbn [Qnum Qden]. rewrite Z.mul_1_r, Z.mul_1_l.
  rewrite <- positive_nat_Z, Nat2Pos.id by lia. reflexivity.
Qed.

(** X19: The score is a symmetric number between 0 and 1; it is 0 exactly when
    the two sets share no word and 1 when they are the same non-empty set. *)
Theorem score_properties (a b : gset string) :
  score a b = score b a /\
  0 <= score a b <= 1 /\
  (score a b == 0 <-> a ∩ b = ∅) /\
  (a <> ∅ -> score a a == 1).
Proof.
  split; [|split; [apply score_range|split; [apply score_zero_iff|apply score_self]]].
  unfold score.
  assert (b ∩ a = a ∩ b) as ->
    by (apply leibniz_equiv, set_equiv; intros x; rewrite !elem_of_intersection; tauto).
  assert (b ∪ a = a ∪ b) as ->
    by (apply leibniz_equiv, set_equiv; intros x; rewrite !elem_of_union; tauto).
  reflexivity.
Qed.

(** *** The best entry *)

Lemma Qgt_bool_true x y : Qgt_bool x y = true -> y < x.
Proof.
  unfold Qgt_bool. intros H. apply negb_true_iff in H.
  apply Qnot_le_lt. intros Hle. apply Qle_bool_iff in Hle. congruence.
Qed.

Lemma Qgt_bool_false x y : Qgt_bool x y = false -> x <= y.
Proof.
  unfold Qgt_bool. intros H. apply negb_false_iff in H.
  apply Qle_bool_iff, H.
Qed.

Lemma Qlt_bool_true x y : Qlt_bool x y = true -> x < y.
Proof. apply Qgt_bool_true. Qed.

Lemma Qlt_bool_false x y : Qlt_bool x y = false -> y <= x.
Proof. apply Qgt_bool_false. Qed.

Section Best.
Variable self : t.
Variable uw : gset string.

Let sc (faq : FAQ) : Q := entry_score self uw faq.

(** What the loop over the entries leaves: nothing, when no entry scores
    above 0; otherwise the first of the entries with the highest score. *)
Lemma best_fold_spec entries :
  let r := fold_left (best_step self uw) entries (None, 0) in
  (r = (None, 0) /\ forall g, In g entries -> sc g <= 0) \/
  (exists before f after,
     entries = before ++ f :: after /\ r = (Some f, sc f) /\ 0 < sc f /\
     (forall g, In g before -> sc g < sc f) /\
     (forall g, In g after -> sc g <= sc f)).
Proof.
  induction entries as [|x l IH] using rev_ind; cbv zeta.
  - left. split; [reflexivity|intros g []].
  - rewrite fold_left_app. cbn [fold_left]. cbv zeta in IH.
    destruct IH as [[Hr Hall]|(before & f & after & -> & Hr & Hpos & Hb & Ha)];
      rewrite Hr; unfold best_step; cbn [snd];
      fold (entry_score self uw x); fold (sc x);
      destruct (Qgt_bool (sc x) _) eqn:Hgt.
    + apply Qgt_bool_true in Hgt. right. exists l, x, [].
      split; [reflexivity|]. split; [reflexivity|]. split; [exact Hgt|].
      split; [|intros g []].
      intros g Hg. apply Qle_lt_trans with 0; [apply Hall, Hg|exact Hgt].
    + apply Qgt_bool_false in Hgt. left. split; [reflexivity|].
      intros g [Hg|[<-|[]]]%in_app_or; [apply Hall, Hg|exact Hgt].
    + apply Qgt_bool_true in Hgt. right. exists (before ++ f :: after), x, [].
      split; [reflexivity|]. split; [reflexivity|].
      split; [apply Qlt_trans with (sc f); assumption|].
      split; [|intros g []].
      intros g [Hg|[<-|Hg]]%in_app_or.
      * apply Qlt_trans with (sc f); [apply Hb, Hg|exact Hgt].
      * exact Hgt.
      * apply Qle_lt_trans with (sc f); [apply Ha, Hg|exact Hgt].
    + apply Qgt_bool_false in Hgt. right. exists before, f, (after ++ [x]).
      split; [rewrite <- app_assoc; reflexivity|]. split; [reflexivity|].
      split; [exact Hpos|]. split; [exact Hb|].
      intros g [Hg|[<-|[]]]%in_app_or; [apply Ha, Hg|exact Hgt].
Qed.

End Best.

Lemma is_nil_true {A} (l : list A) : is_nil l = true -> l = [].
Proof. destruct l; [reflexivity|discriminate]. Qed.

(** X20: A matched question is a stored one: the answer is the one stored with
    it, the confidence is its score, which is positive and not below the
    threshold, every entry before it scores lower and none after it scores
    higher. *)
Theorem find_answer_match (self : t) (query : string) (threshold : Q)
    (r : MatchResult) (q : string) :
  find_answer self query threshold = Ok r -> matched_question r = Some q ->
  exists before f after,
    faqs self = before ++ f :: after /\
    question f = q /\ r_answer r = answer f /\
    confidence r = entry_score self (user_words self query) f /\
    threshold <= confidence r /\ 0 < confidence r /\
    (forall g, In g before ->
       entry_score self (user_words self query) g < confidence r) /\
    (forall g, In g after ->
       entry_score self (user_words self query) g <= confidence r).
Proof.
  unfold find_answer. destruct (is_nil (faqs self)).
  { intros [= <-]. discriminate. }
  destruct (best_fold_spec self (user_words self query) (faqs self))
    as [[Hr Hall]|(before & f & after & Hfaqs & Hr & Hpos & Hb & Ha)];
    rewrite Hr; destruct (Qlt_bool _ threshold) eqn:Hth;
    try (intros [= <-]; discriminate); try discriminate.
  apply Qlt_bool_false in Hth.
  intros [= <-]. cbn [matched_question r_answer confidence]. intros [= <-].
  exists before, f, after. repeat split; assumption.
Qed.

Lemma find_answer_match_witness :
  exists before f after,
    faqs (add_faq (add_faq init "Is there a fee?" "Free") "How do I register?" "Online")
      = before ++ f :: after /\
    question f = "How do I register?" /\ answer f = "Online" /\
    (15 # 100) <= 5 # 6.
Proof.
  destruct (find_answer_match
              (add_faq (add_faq init "Is there a fee?" "Free") "How do I register?" "Online")
              "How can I sign up?" (15 # 100)
              {| r_answer := "Online"; confidence := 5 # 6;
                 matched_question := Some "How do I register?" |}
              "How do I register?")
    as (before & f & after & H1 & H2 & H3 & H4 & H5 & _).
  - vm_compute. reflexivity.
  - reflexivity.
  - exists before, f, after. split; [exact H1|]. split; [exact H2|].
    split; [symmetry; exact H3|]. exact H5.
Defined.

(** X21: A result without a matched question: either nothing is stored and the
    confidence is 0, or the confidence is the highest score of all entries
    and lies below the threshold. *)
Theorem find_answer_no_match (self : t) (query : string) (threshold : Q)
    (r : MatchResult) :
  find_answer self query threshold = Ok r -> matched_question r = None ->
  (faqs self = [] /\ confidence r = 0 /\ r_answer r = NO_FAQS) \/
  (faqs self <> [] /\ confidence r < threshold /\ r_answer r = NO_MATCH /\
   (forall g, In g (faqs self) ->
      entry_score self (user_words self query) g <= confidence r) /\
   (confidence r = 0 \/
    exists g, In g (faqs self) /\
      confidence r = entry_score self (user_words self query) g)).
Proof.
  unfold find_answer. destruct (is_nil (faqs self)) eqn:Hnil.
  { intros [= <-] _. left. split; [apply is_nil_true, Hnil|]. split; reflexivity. }
  assert (Hne : faqs self <> []) by (intros E; rewrite E in Hnil; discriminate).
  destruct (best_fold_spec self (user_words self query) (faqs self))
    as [[Hr Hall]|(before & f & after & Hfaqs & Hr & Hpos & Hb & Ha)];
    rewrite Hr; destruct (Qlt_bool _ threshold) eqn:Hth;
    try discriminate; try (intros [= <-]; discriminate).
  - apply Qlt_bool_true in Hth. intros [= <-] _. right.
    cbn [confidence r_answer]. split; [exact Hne|]. split; [exact Hth|].
    split; [reflexivity|]. split; [exact Hall|]. left. reflexivity.
  - apply Qlt_bool_true in Hth. intros [= <-] _. right.
    cbn [confidence r_answer]. split; [exact Hne|]. split; [exact Hth|].
    split; [reflexivity|]. split.
    + intros g Hg. rewrite Hfaqs in Hg.
      apply in_app_or in Hg as [Hg|[<-|Hg]];
        [apply Qlt_le_weak, Hb, Hg|apply Qle_refl|apply Ha, Hg].
    + right. exists f. split; [|reflexivity].
      rewrite Hfaqs. apply in_or_app. right. left. reflexivity.
Qed.

Lemma find_answer_no_match_witness :
  (faqs (add_faq init "Is there a fee?" "Free") = [] /\
   0 = 0 /\ NO_MATCH = NO_FAQS) \/
  (faqs (add_faq init "Is there a fee?" "Free") <> [] /\
   0 < 15 # 100 /\ NO_MATCH = NO_MATCH /\
   (forall g, In g (faqs (add_faq init "Is there a fee?" "Free")) ->
      entry_score (add_faq init "Is there a fee?" "Free")
        (user_words (add_faq init "Is there a fee?" "Free") "What's the weather like?") g <= 0) /\
   (0 = 0 \/
    exists g, In g (faqs (add_faq init "Is there a fee?" "Free")) /\
      0 = entry_score (add_faq init "Is there a fee?" "Free")
        (user_words (add_faq init "Is there a fee?" "Free") "What's the weather like?") g)).
Proof.
  apply (find_answer_no_match (add_faq init "Is there a fee?" "Free")
           "What's the weather like?" (15 # 100)
           {| r_answer := NO_MATCH; confidence := 0; matched_question := None |}).
  - vm_compute. reflexivity.
  - reflexivity.
Defined.

(** X22: The call fails exactly when something is stored, the test
    [0.0 < threshold] is false and every stored entry has score 0, that is,
    no stored question shares a word with the query. *)
Theorem find_answer_raises_iff (self : t) (query : string) (threshold : Q) :
  raises (find_answer self query threshold) <->
  faqs self <> [] /\ ~ (0 < threshold) /\
  forall g, In g (faqs self) ->
    entry_score self (user_words self query) g == 0.
Proof.
  unfold find_answer. destruct (is_nil (faqs self)) eqn:Hnil.
  { split; [intros [e He]; discriminate He|].
    intros [Hne _]. apply is_nil_true in Hnil. contradiction. }
  assert (Hne : faqs self <> []) by (intros E; rewrite E in Hnil; discriminate).
  destruct (best_fold_spec self (user_words self query) (faqs self))
    as [[Hr Hall]|(before & f & after & Hfaqs & Hr & Hpos & Hb & Ha)];
    rewrite Hr; destruct (Qlt_bool _ threshold) eqn:Hth.
  - apply Qlt_bool_true in Hth. split; [intros [e He]; discriminate He|].
    intros (_ & Hle & _). exfalso. exact (Hle Hth).
  - apply Qlt_bool_false in Hth. split; [|intros _; eexists; reflexivity].
    intros _. split; [exact Hne|]. split; [apply Qle_not_lt, Hth|].
    intros g Hg. apply Qle_antisym; [apply Hall, Hg|apply score_range].
  - split; [intros [e He]; discriminate He|].
    intros (_ & _ & Hzero). exfalso.
    assert (Hf : entry_score self (user_words self query) f == 0).
    { apply Hzero. rewrite Hfaqs. apply in_or_app. right. left. reflexivity. }
    rewrite Hf in Hpos. exact (Qlt_irrefl 0 Hpos).
  - split; [intros [e He]; discriminate He|].
    intros (_ & _ & Hzero). exfalso.
    assert (Hf : entry_score self (user_words self query) f == 0).
    { apply Hzero. rewrite Hfaqs. apply in_or_app. right. left. reflexivity. }
    rewrite Hf in Hpos. exact (Qlt_irrefl 0 Hpos).
Qed.

(** X23: A returned confidence is a number between 0 and 1. *)
Theorem find_answer_confidence_range (self : t) (query : string)
    (threshold : Q) (r : MatchResult) :
  find_answer self query threshold = Ok r -> 0 <= confidence r <= 1.
Proof.
  unfold find_answer. destruct (is_nil (faqs self)).
  { intros [= <-]. cbn [confidence]. split; [apply Qle_refl|unfold Qle; simpl; lia]. }
  destruct (best_fold_spec self (user_words self query) (faqs self))
    as [[Hr Hall]|(before & f & after & Hfaqs & Hr & Hpos & Hb & Ha)];
    rewrite Hr; destruct (Qlt_bool _ threshold);
    try discriminate; intros [= <-]; cbn [confidence];
    try (split; [apply Qle_refl|unfold Qle; simpl; lia]);
    apply score_range.
Qed.

Lemma find_answer_confidence_range_witness :
  0 <= 5 # 6 <= 1.
Proof.
  apply (find_answer_confidence_range
           (add_faq (add_faq init "Is there a fee?" "Free") "How do I register?" "Online")
           "How can I sign up?" (15 # 100)
           {| r_answer := "Online"; confidence := 5 # 6;
              matched_question := Some "How do I register?" |}).
  vm_compute. reflexivity.
Defined.

(** *** Asking a stored question *)

Lemma match_words_not_empty self clean :
  split clean <> [] -> match_words self clean <> ∅.
Proof.
  intros Hne. unfold match_words, set_is_empty.
  destruct (bool_decide_reflect
              (expand_with_synonyms self (list_to_set (split clean) ∖ stop_words self) = ∅))
    as [_|Hn]; [|exact Hn].
  destruct (split clean) as [|x l]; [congruence|].
  intros E. assert (Hx : x ∈ (list_to_set (x :: l) : gset string))
    by (apply elem_of_list_to_set; left).
  rewrite E in Hx. exact (not_elem_of_empty x Hx).
Qed.

Lemma is_nil_snoc {A} (l : list A) x : is_nil (l ++ [x]) = false.
Proof. destruct l; reflexivity. Qed.

(** X24: A question with at least one token, once added, is answered with
    confidence 1 when asked again in the same words, for every threshold up
    to 1. *)
Theorem stored_question_is_found (self : t) (question answer : string)
    (threshold : Q) :
  tokenize question <> [] -> threshold <= 1 ->
  exists r q,
    find_answer (add_faq self question answer) question threshold = Ok r /\
    confidence r == 1 /\ matched_question r = Some q.
Proof.
  intros Htok Hth.
  set (self' := add_faq self question answer).
  set (new := {| FAQFinder.question := question; FAQFinder.answer := answer;
                 question_clean := clean_text question |}).
  assert (Hfaqs : faqs self' = faqs self ++ [new]) by reflexivity.
  assert (Hnew : entry_score self' (user_words self' question) new == 1).
  { unfold entry_score, user_words. cbn [question_clean new].
    apply score_self, match_words_not_empty, Htok. }
  unfold find_answer.
  replace (is_nil (faqs self')) with false
    by (rewrite Hfaqs; symmetry; apply is_nil_snoc).
  destruct (best_fold_spec self' (user_words self' question) (faqs self'))
    as [[Hr Hall]|(before & f & after & Hsplit & Hr & Hpos & Hb & Ha)];
    rewrite Hr.
  - exfalso. assert (Hin : In new (faqs self'))
      by (rewrite Hfaqs; apply in_or_app; right; left; reflexivity).
    specialize (Hall new Hin). rewrite Hnew in Hall.
    apply (Qlt_not_le 0 1); [reflexivity|exact Hall].
  - assert (Hge : 1 <= entry_score self' (user_words self' question) f).
    { rewrite <- Hnew.
      assert (Hin : In new (before ++ f :: after))
        by (rewrite <- Hsplit, Hfaqs; apply in_or_app; right; left; reflexivity).
      apply in_app_or in Hin as [Hin|[<-|Hin]];
        [apply Qlt_le_weak, Hb, Hin|apply Qle_refl|apply Ha, Hin]. }
    destruct (Qlt_bool _ threshold) eqn:Hlt.
    + exfalso. apply Qlt_bool_true in Hlt.
      apply (Qlt_not_le _ _ Hlt). apply Qle_trans with 1; assumption.
    + eexists. eexists. split; [reflexivity|]. cbn [confidence matched_question].
      split; [|reflexivity].
      apply Qle_antisym; [apply score_range|exact Hge].
Qed.

Lemma stored_question_is_found_witness :
  exists r q,
    find_answer (add_faq init "Will there be food?" "Yes") "Will there be food?" (15 # 100)
      = Ok r /\
    confidence r == 1 /\ matched_question r = Some q.
Proof.
  apply (stored_question_is_found init "Will there be food?" "Yes" (15 # 100)).
  - vm_compute. discriminate.
  - unfold Qle. simpl. lia.
Defined.

(** *** Loading a file *)

Lemma bar_not_space c : is_space c = true -> Ascii.eqb c "|" = false.
Proof. CleanerFacts.by_cases_on_char c. Qed.

Lemma has_bar_lstrip s : has_bar (lstrip s) = has_bar s.
Proof.
  induction s as [|c r IH]; [reflexivity|]. cbn [lstrip].
  destruct (is_space c) eqn:Hc; [|reflexivity].
  cbn [has_bar]. rewrite (bar_not_space c Hc). exact IH.
Qed.

Lemma has_bar_rstrip s : has_bar (rstrip s) = has_bar s.
Proof.
  induction s as [|c r IH]; [reflexivity|].
  rewrite TokenFacts.rstrip_cons. cbn [has_bar]. rewrite <- IH.
  destruct (rstrip r) as [|d r'].
  - destruct (is_space c) eqn:Hc; cbn [has_bar].
    + rewrite (bar_not_space c Hc). reflexivity.
    + reflexivity.
  - reflexivity.
Qed.

Lemma has_bar_strip s : has_bar (strip s) = has_bar s.
Proof. unfold strip. rewrite has_bar_rstrip. apply has_bar_lstrip. Qed.

Lemma has_bar_split s :
  has_bar s = true -> is_empty s = false /\ exists q a, split_bar s = Some (q, a).
Proof.
  induction s as [|c r IH]; [discriminate|]. cbn [has_bar split_bar].
  intros H. split; [reflexivity|].
  destruct (Ascii.eqb c "|"); [eexists; eexists; reflexivity|].
  destruct (IH H) as (_ & q & a & ->). eexists. eexists. reflexivity.
Qed.

Lemma load_line_spec self line :
  if has_bar line
  then exists q a, load_line self line = add_faq self q a
  else load_line self line = self.
Proof.
  unfold load_line. rewrite <- (has_bar_strip line).
  destruct (has_bar (strip line)) eqn:H.
  - destruct (has_bar_split _ H) as (-> & q & a & ->).
    eexists. eexists. reflexivity.
  - rewrite andb_false_r. reflexivity.
Qed.

Lemma load_lines_spec lines : forall self,
  exists added,
    faqs (fold_left load_line lines self) = faqs self ++ added /\
    length added = length (List.filter has_bar lines) /\
    (forall f, In f added -> question_clean f = clean_text (question f)) /\
    stop_words (fold_left load_line lines self) = stop_words self /\
    synonyms (fold_left load_line lines self) = synonyms self.
Proof.
  induction lines as [|line lines IH]; intros self; cbn [fold_left List.filter].
  - exists []. rewrite app_nil_r. repeat split. intros f [].
  - pose proof (load_line_spec self line) as Hline.
    destruct (has_bar line).
    + destruct Hline as (q & a & ->).
      destruct (IH (add_faq self q a)) as (added & Hf & Hlen & Hclean & Hsw & Hsyn).
      exists ({| question := q; answer := a; question_clean := clean_text q |} :: added).
      split; [rewrite Hf; cbn [add_faq faqs]; rewrite <- app_assoc; reflexivity|].
      split; [cbn [length]; rewrite Hlen; reflexivity|].
      split; [intros f [<-|Hin]; [reflexivity|apply Hclean, Hin]|].
      split; [rewrite Hsw|rewrite Hsyn]; reflexivity.
    + rewrite Hline. apply IH.
Qed.

(** X25: Loading keeps what was stored and appends one entry for each line that
    contains a bar, in the order of the lines; every other line is skipped,
    the two tables are left as they were, and a missing file changes
    nothing. *)
Theorem load_from_file_adds_bar_lines (self : t) (file : option (list string)) :
  exists added,
    faqs (load_from_file self file) = faqs self ++ added /\
    length added =
      match file with
      | Some lines => length (List.filter has_bar lines)
      | None => 0%nat
      end /\
    (forall f, In f added -> question_clean f = clean_text (question f)) /\
    stop_words (load_from_file self file) = stop_words self /\
    synonyms (load_from_file self file) = synonyms self.
Proof.
  destruct file as [lines|]; cbn [load_from_file].
  - apply load_lines_spec.
  - exists []. rewrite app_nil_r. repeat split. intros f [].
Qed.

End MatchFacts.

(** ** Searching a document *)

Module SearchFacts.
Import PyStr PDFProcessor.

Lemma search_loop_filter term pages : forall acc,
  fold_left
    (fun matching_pages page =>
       if contains (lower (page_text page)) term
       then matching_pages ++ [page_match page]
       else matching_pages)
    pages acc
  = acc ++ map page_match
             (List.filter (fun page => contains (lower (page_text page)) term) pages).
Proof.
  induction pages as [|page pages IH]; intros acc; cbn [fold_left List.filter].
  - cbn [map]. rewrite app_nil_r. reflexivity.
  - rewrite IH. destruct (contains (lower (page_text page)) term); [|reflexivity].
    cbn [map]. rewrite <- app_assoc. reflexivity.
Qed.

Lemma contains_empty s : contains s EmptyString = true.
Proof. destruct s; reflexivity. Qed.

Lemma filter_all {A} (f : A -> bool) l :
  (forall x, f x = true) -> List.filter f l = l.
Proof.
  intros H. induction l as [|x l IH]; [reflexivity|].
  cbn [List.filter]. rewrite H, IH. reflexivity.
Qed.

(** X27: The empty search term is found on every page: the result lists all
    pages of the document, in order. *)
Theorem search_empty_term_lists_all (doc : Doc) (ps : list Page) :
  pages doc = Some ps ->
  search_in_document doc "" = map page_match ps.
Proof.
  intros H. unfold search_in_document. rewrite H. cbv zeta.
  rewrite search_loop_filter. cbn [app lower].
  rewrite filter_all; [reflexivity|]. intros page. apply contains_empty.
Qed.

Lemma search_empty_term_lists_all_witness :
  search_in_document {| pages := Some [mkPage 1 "Intro"; mkPage 2 ""] |} ""
  = map page_match [mkPage 1 "Intro"; mkPage 2 ""].
Proof.
  apply (search_empty_term_lists_all
           {| pages := Some [mkPage 1 "Intro"; mkPage 2 ""] |}).
  reflexivity.
Defined.



Lemma first_chars_length n : forall s, (String.length (first_chars n s) <= n)%nat.
Proof.
  induction n as [|n IH]; intros s; [simpl; lia|].
  destruct s as [|c r]; cbn [first_chars String.length]; [lia|].
  specialize (IH r). lia.
Qed.

Lemma append_length a b :
  String.length (String.append a b) = (String.length a + String.length b)%nat.
Proof.
  induction a as [|c a IH]; [reflexivity|].
  rewrite ChunkerFacts.append_cons. cbn [String.length]. rewrite IH. reflexivity.
Qed.

(** X29: Every result is made from a page of the document that contains the
    term in some case; its preview is the first 200 characters of that page
    followed by three dots, even when the page is shorter, so it has between
    3 and 203 characters.  Without the key [pages] the result is empty. *)
Theorem search_results (doc : Doc) (term : string) (m : PageMatch) :
  In m (search_in_document doc term) ->
  exists ps page,
    pages doc = Some ps /\ In page ps /\
    contains (lower (page_text page)) (lower term) = true /\
    match_page_number m = page_number page /\
    preview m = String.append (first_chars 200 (page_text page)) "..." /\
    (3 <= String.length (preview m) <= 203)%nat.
Proof.
  unfold search_in_document. destruct (pages doc) as [ps|]; [|intros []].
  cbv zeta. rewrite search_loop_filter. cbn [app].
  intros (page & <- & Hp)%in_map_iff. apply filter_In in Hp as [Hin Hc].
  exists ps, page. split; [reflexivity|]. split; [exact Hin|].
  split; [exact Hc|]. split; [reflexivity|]. split; [reflexivity|].
  cbn [preview page_match]. rewrite append_length.
  pose proof (first_chars_length 200 (page_text page)).
  change (String.length "...") with 3%nat. lia.
Qed.

Lemma search_results_witness :
  exists ps page,
    pages {| pages := Some [mkPage 7 "Fees"] |} = Some ps /\ In page ps /\
    contains (lower (page_text page)) (lower "fee") = true /\
    match_page_number (page_match (mkPage 7 "Fees")) = page_number page /\
    preview (page_match (mkPage 7 "Fees"))
      = String.append (first_chars 200 (page_text page)) "..." /\
    (3 <= String.length (preview (page_match (mkPage 7 "Fees"))) <= 203)%nat.
Proof.
  apply (search_results {| pages := Some [mkPage 7 "Fees"] |} "fee"
           (page_match (mkPage 7 "Fees"))).
  left. reflexivity.
Defined.

End SearchFacts.
